(** * nodestat: health checks of blockchain full nodes behind kubectl tunnels

    A shallow embedding of [main.go] and the properties of its
    classifier, its RPC client and its concurrent orchestrator.

    Conventions of the embedding:
    - Go's [int64] and [uint64] are [Z] with the wrap-around written out;
    - a Go [string] is a byte string ([string] of [ascii]);
    - a decoded JSON value ([interface{}] after [json.Unmarshal]) is the
      inductive type [json], objects being finite maps with string keys;
    - a Go [error] is a value of the type [error]; the pair [(v, err)] a Go
      function returns is a pair [(v, option error)];
    - a run-time panic is an explicit outcome;
    - goroutines are programs over the events they send to the outside
      world, run under an arbitrary interleaving. *)

From stdpp Require Import base strings list gmap.
From Stdlib Require Import ZArith Lia Ascii String.
From Stdlib Require QArith_base.

Set Warnings "-register-all".

Local Open Scope string_scope.
Local Open Scope Z_scope.

(** ** Go values *)

(** The two sentinel errors of [strconv]. *)
Inductive numerr : Type :=
| ErrSyntax
| ErrRange.

(** Go [error] values that travel through the program.  [NumError] is
    [*strconv.NumError{Func, Num, Err}]; [ErrorString] is [errors.New];
    [ExternalError] stands for an error made by a library the program
    calls ([net/http], [io], [encoding/json], [os/exec]). *)
Inductive error : Type :=
| NumError (func num : string) (err : numerr)
| ErrorString (msg : string)
| ExternalError (origin : string).

(** Run-time panics the program can raise. *)
Inductive panic : Type :=
| SliceBounds (low len : Z)
| InterfaceConversion (want : string).

(** Outcome of pure Go code: a value, or a panic. *)
Inductive go (A : Type) : Type :=
| Return (a : A)
| Panicked (p : panic).
Arguments Return {A} a.
Arguments Panicked {A} p.

(** A decoded JSON value as [encoding/json] stores it in an
    [interface{}]: [nil], [bool], [float64], [string], [[]interface{}],
    [map[string]interface{}].  A JSON number decodes to a finite
    [float64], kept here as the rational it denotes; the program never
    looks inside one. *)
Inductive json : Type :=
| JNull
| JBool (b : bool)
| JNumber (f : QArith_base.Q)
| JString (s : string)
| JArray (l : list json)
| JObject (m : gmap string json).

(** [m[key]] on a [map[string]interface{}]: a missing key reads as [nil]. *)
Definition index (m : gmap string json) (key : string) : json :=
  default JNull (m !! key).

(** ** Machine integers *)

Definition wrap_uint64 (n : Z) : Z := n mod 2 ^ 64.

Definition wrap_int64 (n : Z) : Z := (n + 2 ^ 63) mod 2 ^ 64 - 2 ^ 63.

Definition in_int64 (n : Z) : Prop := - 2 ^ 63 <= n < 2 ^ 63.

(** [a - b] on [int64]. *)
Definition sub64 (a b : Z) : Z := wrap_int64 (a - b).

(** ** strconv *)

Module strconv.

Definition maxUint64 : Z := 2 ^ 64 - 1.

(** [lower(c)]: [c | ('x' - 'X')]. *)
Definition lower (c : Z) : Z := Z.lor c 32.

(** The digit a byte stands for in [ParseUint], before the test against
    the base; [None] is the [default:] branch of the switch. *)
Definition digit (c : Z) : option Z :=
  if (48 <=? c) && (c <=? 57) then Some (c - 48)
  else if (97 <=? lower c) && (lower c <=? 122) then Some (lower c - 97 + 10)
  else None.

(** The loop of [ParseUint(s, 16, 64)] over the bytes still to read, [n]
    being the value so far.  The result is the pair the function
    returns: on a syntax error [(0, ErrSyntax)], on overflow
    [(maxVal, ErrRange)]. *)
Fixpoint parse_loop (s : string) (n : Z) : Z * option numerr :=
  match s with
  | EmptyString => (n, None)
  | String a rest =>
      match digit (Z.of_N (N_of_ascii a)) with
      | None => (0, Some ErrSyntax)
      | Some d =>
          if 16 <=? d then (0, Some ErrSyntax)
          else if maxUint64 / 16 + 1 <=? n then (maxUint64, Some ErrRange)
          else
            let n16 := wrap_uint64 (n * 16) in
            let n1 := wrap_uint64 (n16 + d) in
            if (n1 <? n16) || (maxUint64 <? n1) then (maxUint64, Some ErrRange)
            else parse_loop rest n1
      end
  end.

(** [strconv.ParseUint(s, 16, 64)], the error still without its
    function name and input. *)
Definition ParseUint (s : string) : Z * option numerr :=
  match s with
  | EmptyString => (0, Some ErrSyntax)
  | _ => parse_loop s 0
  end.

(** [strconv.ParseInt(s, 16, 64)]. *)
Definition ParseInt (s : string) : Z * option error :=
  match s with
  | EmptyString => (0, Some (NumError "ParseInt" s ErrSyntax))
  | String a rest =>
      let '(neg, s1) :=
        if Ascii.eqb a "+"%char then (false, rest)
        else if Ascii.eqb a "-"%char then (true, rest)
        else (false, s) in
      match ParseUint s1 with
      | (_, Some ErrSyntax) => (0, Some (NumError "ParseInt" s ErrSyntax))
      | (un, _) =>
          let cutoff := 2 ^ 63 in
          if negb neg && (cutoff <=? un) then
            (cutoff - 1, Some (NumError "ParseInt" s ErrRange))
          else if neg && (cutoff <? un) then
            (- cutoff, Some (NumError "ParseInt" s ErrRange))
          else
            let n := wrap_int64 un in
            (if neg then wrap_int64 (- n) else n, None)
      end
  end.

End strconv.

(** [s[2:]]: the bytes of [s] from index 2 on; a panic when [s] is
    shorter. *)
Fixpoint string_drop (n : nat) (s : string) : string :=
  match n, s with
  | O, _ => s
  | S n', String _ rest => string_drop n' rest
  | S _, EmptyString => EmptyString
  end.

Definition slice_from2 (s : string) : go string :=
  if (Z.of_nat (String.length s) <? 2)
  then Panicked (SliceBounds 2 (Z.of_nat (String.length s)))
  else Return (string_drop 2 s).

(** [v.(string)], the one-result type assertion: a panic on anything that
    is not a string, [nil] included. *)
Definition assert_string (v : json) : go string :=
  match v with
  | JString s => Return s
  | _ => Panicked (InterfaceConversion "string")
  end.

(** [strconv.ParseInt(v.(string)[2:], 16, 64)], the expression every
    decoding site of the program uses. *)
Definition parse_prefixed_hex (v : json) : go (Z * option error) :=
  match assert_string v with
  | Panicked p => Panicked p
  | Return s =>
      match slice_from2 s with
      | Panicked p => Panicked p
      | Return digits => Return (strconv.ParseInt digits)
      end
  end.

(** ** The classifier *)

(** [getSyncStatus(statusObject, latestBlock)]. *)
Definition getSyncStatus (statusObject : json) (latestBlock : Z)
  : go (string * option error) :=
  match statusObject with
  | JBool _ => Return ("synced", None)
  | JObject val =>
      match index val "startingBlock" with
      | JString _ =>
          match parse_prefixed_hex (index val "startingBlock") with
          | Panicked p => Panicked p
          | Return (startingBlockNum, Some err) => Return ("unknown", Some err)
          | Return (startingBlockNum, None) =>
              if 20 <? sub64 latestBlock startingBlockNum
              then Return ("syncing", None)
              else Return ("synced", None)
          end
      | _ => Return ("unknown", None)
      end
  | _ => Return ("unknown", None)
  end.

(** ** Data model of the program *)

(** [Node]: one entry of the node registry. *)
Record Node : Type := {
  Service : string;
  Port : Z;
  RPCPath : string;
  Namespace : string }.

(** [NodeConfig]: the registry [readConfig] loads. *)
Record NodeConfig : Type := {
  Nodes : gmap string Node;
  PublicApis : gmap string string }.

(** [Result]: what a successful check stores; every number is an
    [int64]. *)
Record Result : Type := {
  SyncStatus : string;
  NodeBlockNum : Z;
  LatestBlockNum : Z;
  Diff : Z;
  PeersCount : Z }.

(** ** The outside world as events *)

(** The two external commands the program builds with [exec.Command]:
    [kubectl port-forward service/<service> <local>:<remote> --namespace
    <namespace>] and [killall <name>]. *)
Inductive command : Type :=
| kubectl_port_forward (service : string) (localPort remotePort : Z) (namespace : string)
| killall (name : string).

(** Where an HTTP exchange followed by [json.Unmarshal] into a
    [map[string]interface{}] stops: the four error returns of [callRPC]
    ([http.NewRequest], [client.Do] or [http.Get], [ioutil.ReadAll],
    [json.Unmarshal]) or the decoded top-level object.  A body that is the
    JSON [null] decodes without error to the nil map, which reads like the
    empty one. *)
Inductive http_reply : Type :=
| RequestFailed (err : error)
| DoFailed (err : error)
| ReadFailed (err : error)
| UnmarshalFailed (err : error)
| Unmarshaled (result : gmap string json).

(** An operand of [fmt.Printf]. *)
Inductive arg : Type :=
| AString (s : string)
| AError (err : error).

(** What a goroutine of the program asks of the outside world, indexed by
    the type of the answer.  [GoScanStderr] stands for the goroutine of
    lines 109 to 114 that prints what the tunnel writes to its standard
    error; [MapStore] is the write [results[nodeName] = r] into the map the
    goroutines share, taken as atomic. *)
Inductive event : Type -> Type :=
| StderrPipe (cmd : command) : event (option error)
| Start (cmd : command) : event (option error)
| GoScanStderr (nodeName : string) : event unit
| Sleep (seconds : Z) : event unit
| Run (cmd : command) : event unit
| HttpPost (port : Z) (path method : string) : event http_reply
| HttpGet (url : string) : event http_reply
| Printf (format : string) (args : list arg) : event unit
| MapStore (nodeName : string) (r : Result) : event unit
| WgDone : event unit.

(** A goroutine: a finite tree of events, ending in a value or in a
    panic. *)
Inductive prog (A : Type) : Type :=
| Ret (a : A)
| Throw (p : panic)
| Vis {X : Type} (e : event X) (k : X -> prog A).
Arguments Ret {A} a.
Arguments Throw {A} p.
Arguments Vis {A X} e k.

Fixpoint bind {A B : Type} (p : prog A) (f : A -> prog B) : prog B :=
  match p with
  | Ret a => f a
  | Throw e => Throw e
  | Vis e k => Vis e (fun x => bind (k x) f)
  end.

#[global] Instance prog_ret : MRet prog := @Ret.
#[global] Instance prog_bind : MBind prog := fun A B f p => bind p f.

Definition trigger {X : Type} (e : event X) : prog X := Vis e Ret.

Definition lift {A : Type} (g : go A) : prog A :=
  match g with
  | Return a => Ret a
  | Panicked p => Throw p
  end.

(** [defer cleanup; body]: [cleanup] runs when [body] returns and when it
    panics, and the panic goes on after it. *)
Fixpoint defer {A : Type} (cleanup : prog unit) (body : prog A) : prog A :=
  match body with
  | Ret a => bind cleanup (fun _ => Ret a)
  | Throw p => bind cleanup (fun _ => Throw p)
  | Vis e k => Vis e (fun x => defer cleanup (k x))
  end.

(** ** The RPC client and the reference fetcher *)

(** [callRPC(node, localPort, method)]: a POST to
    [http://127.0.0.1:<localPort><node.RPCPath>] whose body is the
    JSON-RPC 2.0 request for [method]. *)
Definition callRPC (node : Node) (localPort : Z) (method : string)
  : prog (json * option error) :=
  reply ← trigger (HttpPost localPort (RPCPath node) method);
  match reply with
  | RequestFailed err => mret (JString "", Some err)
  | DoFailed err => mret (JString "", Some err)
  | ReadFailed err => mret (JString "", Some err)
  | UnmarshalFailed err => mret (JString "", Some err)
  | Unmarshaled result => mret (index result "result", None)
  end.

(** [fetchLatestBlock(nodeName, apiUrl)]. *)
Definition fetchLatestBlock (nodeName apiUrl : string) : prog (Z * option error) :=
  reply ← trigger (HttpGet (apiUrl +:+ "?module=proxy&action=eth_blockNumber"));
  match reply with
  | RequestFailed err => mret (0, Some err)
  | DoFailed err => mret (0, Some err)
  | ReadFailed err => mret (0, Some err)
  | UnmarshalFailed err => mret (0, Some err)
  | Unmarshaled result =>
      match index result "result" with
      | JNull => mret (0, Some (ErrorString "no block number found in response"))
      | v => lift (parse_prefixed_hex v)
      end
  end.

(** ** The node checker *)

Definition printf (format : string) (args : list arg) : prog unit :=
  trigger (Printf format args).

(** Lines 145 to 174 of the goroutine: the block height of the node, the
    reference height, the verdict, and the entry in [results].  [status]
    is the raw answer to [eth_syncing], [peersCountNum] the peer count as
    it stands after lines 131 to 143. *)
Definition after_peers (config : NodeConfig) (nodeName : string) (node : Node)
    (localPort : Z) (status : json) (peersCountNum : Z) : prog unit :=
  '(currentNodeBlock, err) ← callRPC node localPort "eth_blockNumber";
  match err with
  | Some err => printf "Error getting latest block for %s: %v\n" [AString nodeName; AError err]
  | None =>
  '(currentNodeBlockNum, err) ← lift (parse_prefixed_hex currentNodeBlock);
  match err with
  | Some err => printf "Error getting latest block for %s: %v\n" [AString nodeName; AError err]
  | None =>
  '(latestBlock, err) ← fetchLatestBlock nodeName (default "" (PublicApis config !! nodeName));
  match err with
  | Some err =>
      printf "Error getting latest block from scanner for %s: %v\n" [AString nodeName; AError err]
  | None =>
  '(syncStatus, err) ← lift (getSyncStatus status latestBlock);
  match err with
  | Some err =>
      printf "failed to determine node %s sync status: %s\n" [AString nodeName; AError err]
  | None => mret tt
  end;;
  trigger (MapStore nodeName
    {| SyncStatus := syncStatus;
       NodeBlockNum := currentNodeBlockNum;
       LatestBlockNum := latestBlock;
       Diff := sub64 latestBlock currentNodeBlockNum;
       PeersCount := peersCountNum |})
  end end end.

(** Lines 124 to 174 of the goroutine, what it does once the tunnel is up
    and the teardown is deferred. *)
Definition queries (config : NodeConfig) (nodeName : string) (node : Node)
    (localPort : Z) : prog unit :=
  '(status, err) ← callRPC node localPort "eth_syncing";
  match err with
  | Some err => printf "Error getting sync status for %s: %v\n" [AString nodeName; AError err]
  | None =>
  let peersCountNum := 0 in
  if negb (String.eqb nodeName "arb") then
    '(peersCount, err) ← callRPC node localPort "net_peerCount";
    match err with
    | Some err => printf "Error getting peers count for %s: %v\n" [AString nodeName; AError err]
    | None =>
    '(peersCountNum, err) ← lift (parse_prefixed_hex peersCount);
    match err with
    | Some err => printf "Error getting peers count for %s: %v\n" [AString nodeName; AError err]
    | None => after_peers config nodeName node localPort status peersCountNum
    end end
  else after_peers config nodeName node localPort status peersCountNum
  end.

(** The whole goroutine, lines 93 to 175. *)
Definition checker (config : NodeConfig) (nodeName : string) (node : Node)
    (localPort : Z) : prog unit :=
  defer (trigger WgDone) (
    let portForwardCmd :=
      kubectl_port_forward (Service node) localPort (Port node) "blockchains" in
    err ← trigger (StderrPipe portForwardCmd);
    match err with
    | Some err =>
        printf "Error creating stderr pipe for %s: %v\n" [AString nodeName; AError err]
    | None =>
    err ← trigger (Start portForwardCmd);
    match err with
    | Some err =>
        printf "Error starting port forward for %s: %v\n" [AString nodeName; AError err]
    | None =>
    trigger (GoScanStderr nodeName);;
    trigger (Sleep 3);;
    defer (trigger (Run (killall "kubectl")))
      (queries config nodeName node localPort)
    end end).

(** ** The world the goroutines run in *)

(** The name [killall] matches a process by. *)
Definition command_name (cmd : command) : string :=
  match cmd with
  | kubectl_port_forward _ _ _ _ => "kubectl"
  | killall _ => "killall"
  end.

(** What the world outside the program answers; [clock] is the number of
    events handled so far, so every answer may change over time.
    [rpc_server] is the node behind a tunnel, reached by the service and
    the remote port the tunnel forwards to. *)
Record environment : Type := {
  pipe_error : nat -> command -> option error;
  start_error : nat -> command -> option error;
  rpc_server : nat -> string -> Z -> string -> string -> http_reply;
  public_api : nat -> string -> http_reply }.

(** The state of a run: the goroutines (what is left of each), the
    processes the program started that still run, the shared [results]
    map, what was printed, the counter of the wait group, and the panic
    that ended the program, if one did. *)
Record state : Type := {
  goroutines : list (prog unit);
  processes : list command;
  results : gmap string Result;
  stdout : list (string * list arg);
  wg : Z;
  clock : nat;
  crashed : option panic }.

Definition set_goroutines (g : list (prog unit)) (s : state) : state :=
  {| goroutines := g; processes := processes s; results := results s;
     stdout := stdout s; wg := wg s; clock := clock s; crashed := crashed s |}.

Definition set_processes (p : list command) (s : state) : state :=
  {| goroutines := goroutines s; processes := p; results := results s;
     stdout := stdout s; wg := wg s; clock := clock s; crashed := crashed s |}.

Definition set_results (r : gmap string Result) (s : state) : state :=
  {| goroutines := goroutines s; processes := processes s; results := r;
     stdout := stdout s; wg := wg s; clock := clock s; crashed := crashed s |}.

Definition set_stdout (o : list (string * list arg)) (s : state) : state :=
  {| goroutines := goroutines s; processes := processes s; results := results s;
     stdout := o; wg := wg s; clock := clock s; crashed := crashed s |}.

Definition set_wg (n : Z) (s : state) : state :=
  {| goroutines := goroutines s; processes := processes s; results := results s;
     stdout := stdout s; wg := n; clock := clock s; crashed := crashed s |}.

Definition tick (s : state) : state :=
  {| goroutines := goroutines s; processes := processes s; results := results s;
     stdout := stdout s; wg := wg s; clock := S (clock s); crashed := crashed s |}.

Definition set_crashed (p : panic) (s : state) : state :=
  {| goroutines := goroutines s; processes := processes s; results := results s;
     stdout := stdout s; wg := wg s; clock := clock s; crashed := Some p |}.

(** The tunnel that listens on a local port: the service and the remote
    port of the first running [kubectl port-forward] bound to it. *)
Fixpoint tunnel_at (port : Z) (procs : list command) : option (string * Z) :=
  match procs with
  | [] => None
  | kubectl_port_forward service localPort remotePort _ :: rest =>
      if localPort =? port then Some (service, remotePort) else tunnel_at port rest
  | _ :: rest => tunnel_at port rest
  end.

(** [killall name]: every running process of that name ends. *)
Definition kill_by_name (name : string) (procs : list command) : list command :=
  List.filter (fun p => negb (String.eqb (command_name p) name)) procs.

(** The effect of one event on the world, and its answer. *)
Definition handle (env : environment) {X : Type} (e : event X) (s : state)
  : X * state :=
  match e in event X return X * state with
  | StderrPipe cmd => (pipe_error env (clock s) cmd, s)
  | Start cmd =>
      match start_error env (clock s) cmd with
      | Some err => (Some err, s)
      | None => (None, set_processes (cmd :: processes s) s)
      end
  | GoScanStderr _ => (tt, s)
  | Sleep _ => (tt, s)
  | Run cmd =>
      match cmd with
      | killall name => (tt, set_processes (kill_by_name name (processes s)) s)
      | _ => (tt, s)
      end
  | HttpPost port path method =>
      match tunnel_at port (processes s) with
      | Some (service, remotePort) =>
          (rpc_server env (clock s) service remotePort path method, s)
      | None => (DoFailed (ExternalError "connection refused"), s)
      end
  | HttpGet url => (public_api env (clock s) url, s)
  | Printf format args => (tt, set_stdout (stdout s ++ [(format, args)]) s)
  | MapStore nodeName r => (tt, set_results (<[nodeName := r]> (results s)) s)
  | WgDone => (tt, set_wg (wg s - 1) s)
  end.

(** Goroutine [i] takes one step: it sends its next event and goes on with
    the answer.  A goroutine that ends in a panic, its deferred calls done,
    ends the whole program; nothing moves after that. *)
Definition step (env : environment) (i : nat) (s : state) : state :=
  match crashed s with
  | Some _ => s
  | None =>
      match goroutines s !! i with
      | None => s
      | Some (Ret _) => s
      | Some (Throw p) => set_crashed p s
      | Some (Vis e k) =>
          let '(x, s') := handle env e s in
          tick (set_goroutines (<[i := k x]> (goroutines s')) s')
      end
  end.

(** A run under a schedule: the goroutine to move at each step. *)
Definition run (env : environment) (schedule : list nat) (s : state) : state :=
  foldl (fun s i => step env i s) s schedule.

(** One goroutine run on its own to its end. *)
Fixpoint exec {A : Type} (env : environment) (p : prog A) (s : state)
  : go A * state :=
  match p with
  | Ret a => (Return a, s)
  | Throw e => (Panicked e, s)
  | Vis e k => let '(x, s') := handle env e s in exec env (k x) (tick s')
  end.

(** ** The orchestrator *)

(** How [main] ends before it starts a check, or what it selects. *)
Inductive selection : Type :=
| Exit (code : Z)
| IndexOutOfRange
| Selected (all : bool) (nodes : gmap string Node).

(** Lines 43 to 76 of [main]: the argument vector decides between all the
    configured nodes and one of them. *)
Definition select (os_args : list string) (config : NodeConfig) : selection :=
  if (2 <? Z.of_nat (List.length os_args)) then Exit 1
  else
    let all := Z.of_nat (List.length os_args) =? 1 in
    if all then Selected true (Nodes config)
    else
      match os_args !! 1%nat with
      | None => IndexOutOfRange
      | Some chainName =>
          match Nodes config !! chainName with
          | Some node => Selected false {[ chainName := node ]}
          | None => Exit 1
          end
      end.

(** The loop of lines 84 to 91 over the nodes in the order the iteration
    over the map yields them: the local port of each. *)
Fixpoint assign_ports (all : bool) (nodes : list (string * Node))
    (localPortCounter : Z) : list (string * Node * Z) :=
  match nodes with
  | [] => []
  | (nodeName, node) :: rest =>
      let lp := 8080 in
      if all
      then (nodeName, node, lp + localPortCounter)
             :: assign_ports all rest (localPortCounter + 1)
      else (nodeName, node, lp) :: assign_ports all rest localPortCounter
  end.

(** The state when every goroutine is started and none has moved. *)
Definition launch (config : NodeConfig) (all : bool) (nodes : list (string * Node))
  : state :=
  let assigned := assign_ports all nodes 1 in
  {| goroutines := (fun '(nodeName, node, lp) => checker config nodeName node lp) <$> assigned;
     processes := [];
     results := ∅;
     stdout := [];
     wg := Z.of_nat (List.length assigned);
     clock := O;
     crashed := None |}.

(** The mapping [main] goes on to report: there once [wg.Wait()] returns,
    and never if the program crashed. *)
Definition report (s : state) : option (gmap string Result) :=
  match crashed s with
  | Some _ => None
  | None => if wg s =? 0 then Some (results s) else None
  end.

(** The local ports the running tunnels are bound to. *)
Fixpoint open_ports (procs : list command) : list Z :=
  match procs with
  | [] => []
  | kubectl_port_forward _ localPort _ _ :: rest => localPort :: open_ports rest
  | _ :: rest => open_ports rest
  end.

(** ** Properties of programs as event trees *)

(** Every event a goroutine can send, on any path, satisfies [P]. *)
Fixpoint forall_events {A : Type} (P : forall X, event X -> Prop) (p : prog A) : Prop :=
  match p with
  | Ret _ => True
  | Throw _ => True
  | Vis e k => P _ e /\ forall x, forall_events P (k x)
  end.

(** The command an event starts, if it starts one. *)
Definition is_start {X : Type} (e : event X) : option command :=
  match e with
  | Start cmd => Some cmd
  | _ => None
  end.

Definition never_starts {A : Type} (p : prog A) : Prop :=
  forall_events (fun _ e => is_start e = None) p.

(** A goroutine starts at most one process, a tunnel on the local port
    [lp], and none after it. *)
Fixpoint starts_once {A : Type} (lp : Z) (p : prog A) : Prop :=
  match p with
  | Ret _ => True
  | Throw _ => True
  | Vis e k =>
      match is_start e with
      | Some cmd => open_ports [cmd] = [lp] /\ forall x, never_starts (k x)
      | None => forall x, starts_once lp (k x)
      end
  end.

(** The raw sync status is an object that has the field
    [startingBlock]. *)
Definition has_starting_block (statusObject : json) : Prop :=
  exists m x, statusObject = JObject m /\ m !! "startingBlock" = Some x.


(** The entry an event writes into [results], if it writes one. *)
Definition stores {X : Type} (e : event X) : option (string * Result) :=
  match e with
  | MapStore nodeName r => Some (nodeName, r)
  | _ => None
  end.


(** What holds of the tunnels all along a run: no two share a local port,
    and a goroutine that may still start its tunnel finds its port free. *)
Definition tunnels_distinct (ports : list Z) (s : state) : Prop :=
  NoDup (open_ports (processes s))
  /\ Forall2 (fun lp p =>
                never_starts p
                \/ (starts_once lp p /\ lp ∉ open_ports (processes s)))
       ports (goroutines s).


(** The line an event prints, if it prints one. *)
Definition prints {X : Type} (e : event X) : option (string * list arg) :=
  match e with
  | Printf format args => Some (format, args)
  | _ => None
  end.

(** A line that reports the failure of the check of [nodeName]: every line
    the goroutine prints about the node but the one about the verdict. *)
Definition failure_line (nodeName : string) (line : string * list arg) : bool :=
  match line with
  | (format, [AString n; AError _]) =>
      String.eqb n nodeName
      && negb (String.eqb format "failed to determine node %s sync status: %s\n")
  | _ => false
  end.

Definition no_store (nodeName : string) (X : Type) (e : event X) : Prop :=
  forall r, stores e <> Some (nodeName, r).

Definition no_failure (nodeName : string) (X : Type) (e : event X) : Prop :=
  forall line, prints e = Some line -> failure_line nodeName line = false.

(** An event that neither writes the entry of [nodeName] nor reports its
    failure. *)
Definition foreign (nodeName : string) (X : Type) (e : event X) : Prop :=
  no_store nodeName X e /\ no_failure nodeName X e.

(** On no path does a goroutine both report the failure of [nodeName] and
    write its entry. *)
Fixpoint store_xor_fail {A : Type} (nodeName : string) (p : prog A) : Prop :=
  forall_events (no_store nodeName) p
  \/ forall_events (no_failure nodeName) p
  \/ match p with
     | Vis e k => foreign nodeName _ e /\ forall x, store_xor_fail nodeName (k x)
     | _ => True
     end.

Definition no_failure_printed (nodeName : string) (out : list (string * list arg)) : Prop :=
  Forall (fun line => failure_line nodeName line = false) out.

(** What holds all along a run of goroutines named [names], for the node
    [nodeName]: the goroutines of the other nodes leave its entry and its
    failures alone, and its own goroutine has not both failed and
    stored. *)
Definition isolated_entry (nodeName : string) (names : list string) (s : state) : Prop :=
  Forall2 (fun m p => m <> nodeName -> forall_events (foreign nodeName) p)
    names (goroutines s)
  /\ ((results s !! nodeName = None /\ no_failure_printed nodeName (stdout s)
       /\ Forall2 (fun m p => m = nodeName -> store_xor_fail nodeName p)
            names (goroutines s))
      \/ (results s !! nodeName = None
          /\ Forall2 (fun m p => m = nodeName -> forall_events (no_store nodeName) p)
               names (goroutines s))
      \/ (no_failure_printed nodeName (stdout s)
          /\ Forall2 (fun m p => m = nodeName -> forall_events (no_failure nodeName) p)
               names (goroutines s))).

(** ** Sample inputs *)

Module Sample.

Definition eth : Node :=
  {| Service := "eth-node"; Port := 8545; RPCPath := "/rpc"; Namespace := "blockchains" |}.

Definition bsc : Node :=
  {| Service := "bsc-node"; Port := 8545; RPCPath := "/"; Namespace := "blockchains" |}.

Definition arb : Node :=
  {| Service := "arb-node"; Port := 8547; RPCPath := "/rpc"; Namespace := "blockchains" |}.

Definition config : NodeConfig :=
  {| Nodes := {[ "eth" := eth; "bsc" := bsc ]};
     PublicApis := {[ "eth" := "https://api.etherscan.io/api";
                      "bsc" := "https://api.bscscan.com/api";
                      "arb" := "https://api.arbiscan.io/api" ]} |}.

(** A healthy node: [eth_syncing] is [false], 5 peers, block 100. *)
Definition healthy (method : string) : http_reply :=
  if String.eqb method "eth_syncing" then Unmarshaled {[ "result" := JBool false ]}
  else if String.eqb method "net_peerCount" then Unmarshaled {[ "result" := JString "0x5" ]}
  else Unmarshaled {[ "result" := JString "0x64" ]}.

(** A world where every tunnel starts, every node is healthy but the one
    behind [broken], which answers the query [method] with [reply], and
    the reference reports block 100. *)
Definition world (broken method : string) (reply : http_reply) : environment :=
  {| pipe_error := fun _ _ => None;
     start_error := fun _ _ => None;
     rpc_server := fun _ service _ _ m =>
       if String.eqb service broken && String.eqb m method then reply else healthy m;
     public_api := fun _ _ => Unmarshaled {[ "result" := JString "0x64" ]} |}.

(** Every node healthy. *)
Definition all_healthy : environment := world "" "" (Unmarshaled ∅).

End Sample.

Module Failing.

(** The state once the tunnel of the node [eth] is up on port 8080. *)
Definition tunnel_up : state :=
  {| goroutines := [];
     processes := [kubectl_port_forward "eth-node" 8080 8545 "blockchains"];
     results := ∅; stdout := []; wg := 0; clock := O; crashed := None |}.

(** A JSON-RPC error response: an envelope with the field [error] and
    without the field [result]. *)
Definition error_envelope : gmap string json :=
  {[ "jsonrpc" := JString "2.0";
     "id" := JNumber (QArith_base.Qmake 1 1);
     "error" := JObject {[ "message" := JString "method not found" ]} ]}.

(** The node answers [net_peerCount] with the error envelope. *)
Definition no_result : environment :=
  Sample.world "eth-node" "net_peerCount" (Unmarshaled error_envelope).

(** The reference answers with the error envelope. *)
Definition no_reference : environment :=
  {| pipe_error := fun _ _ => None;
     start_error := fun _ _ => None;
     rpc_server := fun _ _ _ _ m => Sample.healthy m;
     public_api := fun _ _ => Unmarshaled error_envelope |}.

(** The node answers [eth_syncing] with the object
    [{startingBlock: "0"}], the value a string of one byte. *)
Definition short_starting_block : environment :=
  Sample.world "eth-node" "eth_syncing"
    (Unmarshaled {[ "result" := JObject {[ "startingBlock" := JString "0" ]} ]}).

(** The node answers [eth_syncing] with the object
    [{startingBlock: "0xzz"}], a prefixed string that is not a number. *)
Definition bad_hex_starting_block : environment :=
  Sample.world "eth-node" "eth_syncing"
    (Unmarshaled {[ "result" := JObject {[ "startingBlock" := JString "0xzz" ]} ]}).

(** The node [eth] answers [eth_syncing] with a body that is not JSON. *)
Definition eth_down : environment :=
  Sample.world "eth-node" "eth_syncing" (UnmarshalFailed (ExternalError "invalid character")).

(** The check of the one node [eth], selected by name. *)
Definition one : state := launch Sample.config false [("eth", Sample.eth)].

(** The checks of [eth] and [bsc], all nodes selected. *)
Definition two : state :=
  launch Sample.config true [("eth", Sample.eth); ("bsc", Sample.bsc)].

(** Goroutine [i] moves [n] times. *)
Definition moves (i : nat) (n : nat) : list nat := List.repeat i n.

(** Both tunnels come up, [eth] then [bsc], before any query. *)
Definition both_up : list nat := List.app (moves 0 4) (moves 1 4).

End Failing.

Module Arb.

Definition config : NodeConfig :=
  {| Nodes := {[ "arb" := Sample.arb ]}; PublicApis := PublicApis Sample.config |}.




End Arb.

(** ** The wait group and the teardown on event trees *)

Definition is_done {X : Type} (e : event X) : bool :=
  match e with
  | WgDone => true
  | _ => false
  end.


(** A goroutine that has nothing left to do: it returned, or it is about
    to end the program with its panic. *)
Definition finished {A : Type} (p : prog A) : Prop :=
  match p with
  | Vis _ _ => False
  | _ => True
  end.

(** On every path the goroutine calls [wg.Done()] once, as its last
    event. *)
Fixpoint ends_with_done {A : Type} (p : prog A) : Prop :=
  match p with
  | Vis e k =>
      if is_done e then forall x, finished (k x) else forall x, ends_with_done (k x)
  | _ => False
  end.

(** The number of goroutines that still owe their [wg.Done()]. *)
Fixpoint pending (flags : list bool) : Z :=
  match flags with
  | [] => 0
  | b :: rest => (if b then 1 else 0) + pending rest
  end.

(** What holds of the wait group all along a run: its counter is the
    number of goroutines that have not called [wg.Done()] yet, and the
    others are finished. *)
Definition barrier (s : state) : Prop :=
  exists flags : list bool,
    Forall2 (fun (b : bool) p => if b then ends_with_done p else finished p)
      flags (goroutines s)
    /\ wg s = pending flags.




(** The event leaves the table of processes alone. *)
Definition leaves_processes {X : Type} (e : event X) : bool :=
  match e with
  | Start _ => false
  | Run _ => false
  | _ => true
  end.

(** ** What a goroutine returns and what it stores *)

(** A value the program can return, for some answers of the world that
    [Q] admits. *)
Fixpoint returns_under {A : Type} (Q : forall X, event X -> X -> Prop) (p : prog A)
    (a : A) : Prop :=
  match p with
  | Ret a' => a' = a
  | Throw _ => False
  | Vis e k => exists x, Q _ e x /\ returns_under Q (k x) a
  end.

(** Any answer of the world. *)
Definition any_answer (X : Type) (e : event X) (x : X) : Prop := True.

(** Every entry the event writes into [results] satisfies [Q]. *)
Definition stores_only (Q : string -> Result -> Prop) (X : Type) (e : event X) : Prop :=
  forall n r, stores e = Some (n, r) -> Q n r.

(** What holds of [results] all along a run: the entries written so far
    and those the goroutines may still write satisfy [Q]. *)
Definition results_satisfy (Q : string -> Result -> Prop) (s : state) : Prop :=
  (forall n r, results s !! n = Some r -> Q n r)
  /\ Forall (forall_events (stores_only Q)) (goroutines s).

(** An entry as the check builds it: one of the three verdicts, every
    number an [int64], and the difference that of the two heights. *)
Definition well_formed (r : Result) : Prop :=
  (SyncStatus r = "synced" \/ SyncStatus r = "syncing" \/ SyncStatus r = "unknown")
  /\ in_int64 (NodeBlockNum r)
  /\ in_int64 (LatestBlockNum r)
  /\ in_int64 (PeersCount r)
  /\ Diff r = sub64 (LatestBlockNum r) (NodeBlockNum r)
  /\ in_int64 (Diff r).

(** ** Answers that cannot make the program panic *)

(** A string of at least two bytes, what the decoding of a height or of
    a peer count slices. *)
Definition hex_shaped (v : json) : Prop :=
  exists s, v = JString s /\ (2 <= String.length s)%nat.








Module Steady.

(** A world where every tunnel starts, every node is healthy and the
    reference reports block 100. *)
Definition world : environment :=
  {| pipe_error := fun _ _ => None;
     start_error := fun _ _ => None;
     rpc_server := fun _ _ _ _ method => Sample.healthy method;
     public_api := fun _ _ => Unmarshaled {[ "result" := JString "0x64" ]} |}.

End Steady.

(** ** Hexadecimal numerals *)

(** The value of a hexadecimal digit: [0-9], [a-f], [A-F]. *)
Definition hex_digit (a : ascii) : option Z :=
  let c := Z.of_N (N_of_ascii a) in
  if (48 <=? c) && (c <=? 57) then Some (c - 48)
  else if (97 <=? c) && (c <=? 102) then Some (c - 87)
  else if (65 <=? c) && (c <=? 70) then Some (c - 55)
  else None.

(** The value of a string of hexadecimal digits read after [acc], most
    significant digit first. *)
Fixpoint hex_fold (s : string) (acc : Z) : option Z :=
  match s with
  | EmptyString => Some acc
  | String a rest =>
      match hex_digit a with
      | Some d => hex_fold rest (acc * 16 + d)
      | None => None
      end
  end.

(** The number a non-empty string of hexadecimal digits denotes. *)
Definition hex_value (s : string) : option Z :=
  match s with
  | EmptyString => None
  | _ => hex_fold s 0
  end.

(** ** The printing of the mapping *)

(** An operand of the lines [main] prints about an entry: a string for
    [%s], an [int64] for [%d]. *)
Inductive operand : Type :=
| OString (s : string)
| OInt (n : Z).

(** The body of the loop of lines 180 to 191: the lines printed for one
    entry, the last one that of [fmt.Println()]. *)
Definition print_entry (nodeName : string) (res : Result)
  : list (string * list operand) :=
  List.app
    [("Node: %s\n", [OString nodeName]);
     ("Sync status: %s\n", [OString (SyncStatus res)]);
     ("Node block number: %d\n", [OInt (NodeBlockNum res)]);
     ("Scanner block number: %d\n", [OInt (LatestBlockNum res)]);
     ("Diff with mainnet: %d\n", [OInt (Diff res)])]
    (List.app
       (if negb (String.eqb nodeName "arb")
        then [("Peers count: %d\n", [OInt (PeersCount res)])]
        else [])
       [("\n", [])]).

(** The loop over the entries, in the order the iteration over the map
    yields them. *)
Fixpoint print_results (entries : list (string * Result))
  : list (string * list operand) :=
  match entries with
  | [] => []
  | (nodeName, res) :: rest => List.app (print_entry nodeName res) (print_results rest)
  end.

(** ** The length of a check *)

(** On every path the program sends at most [n] events. *)
Fixpoint within {A : Type} (n : nat) (p : prog A) {struct p} : Prop :=
  match p with
  | Vis e k =>
      match n with
      | O => False
      | S n' => forall x, within n' (k x)
      end
  | _ => True
  end.

(** The number of turns goroutine [i] gets in a schedule. *)
Fixpoint turns (i : nat) (schedule : list nat) : nat :=
  match schedule with
  | [] => 0
  | j :: rest => (if Nat.eqb j i then 1 else 0) + turns i rest
  end.

(** * Theorems *)

(** ** Decoding and classification at work *)

Example parse_0x64 : parse_prefixed_hex (JString "0x64") = Return (100, None).
Proof. reflexivity. Qed.

Example parse_neg : strconv.ParseInt "-8000000000000000" = (- 2 ^ 63, None).
Proof. reflexivity. Qed.

Example parse_range : strconv.ParseInt "8000000000000000"
  = (2 ^ 63 - 1, Some (NumError "ParseInt" "8000000000000000" ErrRange)).
Proof. reflexivity. Qed.

Example parse_bad : strconv.ParseInt "12g" = (0, Some (NumError "ParseInt" "12g" ErrSyntax)).
Proof. reflexivity. Qed.

Example sync_obj :
  getSyncStatus (JObject {[ "startingBlock" := JString "0x32" ]}) 100 = Return ("syncing", None).
Proof. vm_compute. reflexivity. Qed.

(** ** Machine integers *)

Lemma wrap_int64_exact (n : Z) : in_int64 n -> wrap_int64 n = n.
Proof.
  unfold in_int64, wrap_int64. intros H.
  rewrite Z.mod_small; lia.
Qed.

Lemma wrap_int64_range (n : Z) : in_int64 (wrap_int64 n).
Proof.
  unfold in_int64, wrap_int64.
  pose proof (Z.mod_pos_bound (n + 2 ^ 63) (2 ^ 64)). lia.
Qed.

Lemma sub64_exact (a b : Z) : in_int64 (a - b) -> sub64 a b = a - b.
Proof. apply wrap_int64_exact. Qed.

(** ** The classifier *)

Lemma parse_prefixed_hex_string (v : json) (r : Z * option error) :
  parse_prefixed_hex v = Return r -> exists s, v = JString s.
Proof. destruct v; simpl; try discriminate. eauto. Qed.

Lemma getSyncStatus_object (val : gmap string json) (s : string) (latestBlock : Z) :
  val !! "startingBlock" = Some (JString s) ->
  getSyncStatus (JObject val) latestBlock =
    match parse_prefixed_hex (JString s) with
    | Panicked p => Panicked p
    | Return (_, Some err) => Return ("unknown", Some err)
    | Return (startingBlockNum, None) =>
        if 20 <? sub64 latestBlock startingBlockNum
        then Return ("syncing", None)
        else Return ("synced", None)
    end.
Proof.
  intros H. unfold getSyncStatus, index. rewrite H. reflexivity.
Qed.

(** C1, as amended.  For a status object whose [startingBlock] decodes to
    [X], the verdict is "syncing" exactly when the [int64] difference
    [latestBlock - X] is above 20, and "synced" exactly when it is at most
    20, a negative difference included. *)
Theorem C1_threshold (val : gmap string json) (v : json) (X latestBlock : Z) :
  val !! "startingBlock" = Some v ->
  parse_prefixed_hex v = Return (X, None) ->
  (getSyncStatus (JObject val) latestBlock = Return ("syncing", None)
     <-> sub64 latestBlock X > 20)
  /\ (getSyncStatus (JObject val) latestBlock = Return ("synced", None)
     <-> sub64 latestBlock X <= 20).
Proof.
  intros Hv Hx.
  destruct (parse_prefixed_hex_string _ _ Hx) as [s ->].
  rewrite (getSyncStatus_object _ _ _ Hv), Hx.
  destruct (Z.ltb_spec 20 (sub64 latestBlock X)); split; split;
    intros; try discriminate; try reflexivity; lia.
Qed.

Lemma C1_threshold_witness :
  (getSyncStatus (JObject {[ "startingBlock" := JString "0x32" ]}) 100
     = Return ("syncing", None) <-> sub64 100 50 > 20)
  /\ (getSyncStatus (JObject {[ "startingBlock" := JString "0x32" ]}) 100
     = Return ("synced", None) <-> sub64 100 50 <= 20).
Proof.
  apply (C1_threshold {[ "startingBlock" := JString "0x32" ]} (JString "0x32") 50 100).
  - reflexivity.
  - reflexivity.
Defined.

(** C1 as the specification words it fails below the band: with the
    starting block 100 and the reference 50 the verdict is "synced" though
    the difference is negative. *)
Lemma C1_counterexample :
  parse_prefixed_hex (JString "0x64") = Return (100, None)
  /\ ~ (getSyncStatus (JObject {[ "startingBlock" := JString "0x64" ]}) 50
          = Return ("synced", None) <-> 0 <= 50 - 100 <= 20).
Proof.
  split; [reflexivity|].
  intros [H _].
  assert (E : getSyncStatus (JObject {[ "startingBlock" := JString "0x64" ]}) 50
              = Return ("synced", None)) by (vm_compute; reflexivity).
  specialize (H E). lia.
Qed.

(** Without overflow the difference of C1 is the exact one. *)
Corollary getSyncStatus_exact (val : gmap string json) (v : json) (X latestBlock : Z) :
  val !! "startingBlock" = Some v ->
  parse_prefixed_hex v = Return (X, None) ->
  in_int64 (latestBlock - X) ->
  getSyncStatus (JObject val) latestBlock
    = Return (if 20 <? latestBlock - X then "syncing" else "synced", None).
Proof.
  intros Hv Hx Hr.
  destruct (parse_prefixed_hex_string _ _ Hx) as [s ->].
  rewrite (getSyncStatus_object _ _ _ Hv), Hx, (sub64_exact _ _ Hr).
  destruct (20 <? latestBlock - X); reflexivity.
Qed.

(** On overflow the wrapped difference decides: the reference at the top
    of [int64] and a starting block of -1 are 2^63 apart, and the verdict
    is "synced". *)
Example getSyncStatus_overflow :
  getSyncStatus (JObject {[ "startingBlock" := JString "0x-1" ]}) (2 ^ 63 - 1)
    = Return ("synced", None).
Proof. vm_compute. reflexivity. Qed.

(** A [startingBlock] that is a string but not a hex number is a decode
    error, handed back with the verdict. *)
Example getSyncStatus_non_hex_string :
  getSyncStatus (JObject {[ "startingBlock" := JString "0xhello" ]}) 100
    = Return ("unknown", Some (NumError "ParseInt" "hello" ErrSyntax)).
Proof. vm_compute. reflexivity. Qed.

(** C4, as amended.  A raw status that is neither a boolean nor an object
    with the field [startingBlock] is classified "unknown" without an
    error. *)
Theorem C4_other_shapes (statusObject : json) (latestBlock : Z) :
  (forall b, statusObject <> JBool b) ->
  ~ has_starting_block statusObject ->
  getSyncStatus statusObject latestBlock = Return ("unknown", None).
Proof.
  intros Hb Ho. destruct statusObject as [| b | | | | m]; try reflexivity.
  - destruct (Hb b). reflexivity.
  - unfold getSyncStatus, index.
    destruct (m !! "startingBlock") as [x|] eqn:E; [|reflexivity].
    destruct Ho. exists m, x. auto.
Qed.

Lemma C4_other_shapes_witness :
  getSyncStatus (JObject {[ "currentBlock" := JString "0x64" ]}) 100
    = Return ("unknown", None).
Proof.
  apply C4_other_shapes.
  - intros b. discriminate.
  - intros (m & x & E & H). injection E as <-. vm_compute in H. discriminate.
Defined.

(** C4 as the specification words it fails on the boolean [true], a shape
    other than [false]: the verdict is "synced". *)
Lemma C4_counterexample :
  JBool true <> JBool false
  /\ ~ has_starting_block (JBool true)
  /\ getSyncStatus (JBool true) 100 = Return ("synced", None)
  /\ getSyncStatus (JBool true) 100 <> Return ("unknown", None).
Proof.
  repeat split; try discriminate.
  intros (m & x & E & _). discriminate.
Qed.

(** C10.  A [startingBlock] that is present but not a string gives
    "unknown" without an error, as the object without the field does. *)
Theorem C10_non_string_starting_block (val : gmap string json) (v : json)
    (latestBlock : Z) :
  val !! "startingBlock" = Some v ->
  (forall s, v <> JString s) ->
  getSyncStatus (JObject val) latestBlock = Return ("unknown", None)
  /\ getSyncStatus (JObject val) latestBlock
     = getSyncStatus (JObject (delete "startingBlock" val)) latestBlock.
Proof.
  intros Hv Hs. unfold getSyncStatus, index.
  rewrite Hv, lookup_delete_eq. simpl.
  destruct v; try (split; reflexivity).
  destruct (Hs s). reflexivity.
Qed.

Lemma C10_non_string_starting_block_witness :
  getSyncStatus (JObject {[ "startingBlock" := JNumber (QArith_base.Qmake 100 1) ]}) 100
    = Return ("unknown", None)
  /\ getSyncStatus (JObject {[ "startingBlock" := JNumber (QArith_base.Qmake 100 1) ]}) 100
     = getSyncStatus (JObject (delete "startingBlock" {[ "startingBlock" := JNumber (QArith_base.Qmake 100 1) ]})) 100.
Proof.
  apply (C10_non_string_starting_block _ (JNumber (QArith_base.Qmake 100 1))).
  - reflexivity.
  - intros s. discriminate.
Defined.

(** ** The RPC client *)

(** A successful exchange through a live tunnel hands back the field
    [result] of the envelope, whatever it is, and no error. *)
Lemma callRPC_unmarshaled (env : environment) (s : state) (node : Node)
    (localPort : Z) (method service : string) (remotePort : Z)
    (result : gmap string json) :
  tunnel_at localPort (processes s) = Some (service, remotePort) ->
  rpc_server env (clock s) service remotePort (RPCPath node) method = Unmarshaled result ->
  exec env (callRPC node localPort method) s = (Return (index result "result", None), tick s).
Proof.
  intros Ht Hr. simpl. rewrite Ht, Hr. reflexivity.
Qed.

(** An envelope without [result] comes back as [nil] with no error. *)
Lemma callRPC_no_result (env : environment) (s : state) (node : Node)
    (localPort : Z) (method service : string) (remotePort : Z)
    (result : gmap string json) :
  tunnel_at localPort (processes s) = Some (service, remotePort) ->
  rpc_server env (clock s) service remotePort (RPCPath node) method = Unmarshaled result ->
  result !! "result" = None ->
  fst (exec env (callRPC node localPort method) s) = Return (JNull, None).
Proof.
  intros Ht Hr Hn. rewrite (callRPC_unmarshaled _ _ _ _ _ _ _ _ Ht Hr).
  unfold index. rewrite Hn. reflexivity.
Qed.

(** The reference fetcher turns the same envelope into an error. *)
Lemma fetchLatestBlock_no_result (env : environment) (s : state)
    (nodeName apiUrl : string) (result : gmap string json) :
  public_api env (clock s) (apiUrl +:+ "?module=proxy&action=eth_blockNumber")
    = Unmarshaled result ->
  result !! "result" = None ->
  fst (exec env (fetchLatestBlock nodeName apiUrl) s)
    = Return (0, Some (ErrorString "no block number found in response")).
Proof.
  intros Hr Hn. simpl. rewrite Hr. unfold index. rewrite Hn. reflexivity.
Qed.

(** C5, at the failing input.  The node answers with an envelope that has
    no [result]: [callRPC] returns [nil] and no error, where
    [fetchLatestBlock] makes the same envelope an error. *)
Theorem C5_missing_result_no_error :
  fst (exec Failing.no_result (callRPC Sample.eth 8080 "net_peerCount") Failing.tunnel_up)
    = Return (JNull, None)
  /\ fst (exec Failing.no_reference
            (fetchLatestBlock "eth" "https://api.etherscan.io/api") Failing.tunnel_up)
     = Return (0, Some (ErrorString "no block number found in response")).
Proof. split; vm_compute; reflexivity. Qed.

(** ** Decoding of prefixed hex integers *)

(** The decoding panics on a value that is not a string and on a string
    of less than two bytes, and it never looks at the two bytes it
    drops. *)
Lemma parse_prefixed_hex_cases :
  parse_prefixed_hex JNull = Panicked (InterfaceConversion "string")
  /\ parse_prefixed_hex (JNumber (QArith_base.Qmake 5 1)) = Panicked (InterfaceConversion "string")
  /\ parse_prefixed_hex (JString "0") = Panicked (SliceBounds 2 1)
  /\ parse_prefixed_hex (JString "zz0") = Return (0, None)
  /\ parse_prefixed_hex (JString "1234") = Return (52, None).
Proof. repeat split. Qed.

(** C6, at the failing input.  The node [eth], checked alone, answers
    [net_peerCount] with an envelope that has no [result]: the goroutine
    panics on the type assertion, the program ends and reports nothing. *)
Theorem C6_missing_value_panics :
  select ["nodestat"; "eth"] Sample.config = Selected false {[ "eth" := Sample.eth ]}
  /\ crashed (run Failing.no_result (Failing.moves 0 9) Failing.one)
     = Some (InterfaceConversion "string")
  /\ report (run Failing.no_result (Failing.moves 0 9) Failing.one) = None.
Proof. repeat split; vm_compute; reflexivity. Qed.

(** ** A decode error inside the classifier *)

Lemma exec_bind {A B : Type} (env : environment) (p : prog A) (f : A -> prog B)
    (s : state) :
  exec env (bind p f) s
    = match exec env p s with
      | (Return a, s') => exec env (f a) s'
      | (Panicked e, s') => (Panicked e, s')
      end.
Proof.
  revert s. induction p as [a|e|X e k IH]; intros s; simpl; try reflexivity.
  destruct (handle env e s) as [x s']. apply IH.
Qed.

Lemma fetchLatestBlock_unmarshaled (env : environment) (s : state)
    (nodeName apiUrl : string) (result : gmap string json) (r : Z * option error) :
  public_api env (clock s) (apiUrl +:+ "?module=proxy&action=eth_blockNumber")
    = Unmarshaled result ->
  parse_prefixed_hex (index result "result") = Return r ->
  exec env (fetchLatestBlock nodeName apiUrl) s = (Return r, tick s).
Proof.
  intros Hr Hp. simpl. rewrite Hr.
  destruct (index result "result"); try discriminate.
  rewrite Hp. reflexivity.
Qed.

(** A string of at least two bytes that [ParseInt] rejects after the
    prefix makes the verdict "unknown" and hands the error back. *)
Lemma getSyncStatus_decode_error (val : gmap string json) (s : string)
    (latestBlock n : Z) (err : error) :
  val !! "startingBlock" = Some (JString s) ->
  parse_prefixed_hex (JString s) = Return (n, Some err) ->
  getSyncStatus (JObject val) latestBlock = Return ("unknown", Some err).
Proof.
  intros Hv Hp. rewrite (getSyncStatus_object _ _ _ Hv), Hp. reflexivity.
Qed.

(** X14.  When the classifier hands back an error with its verdict, the check
    prints the error and stores the entry all the same. *)
Lemma after_peers_classification_error (env : environment) (s : state)
    (config : NodeConfig) (nodeName : string) (node : Node) (localPort : Z)
    (status : json) (peersCountNum : Z) (service : string) (remotePort : Z)
    (block reference : gmap string json) (currentNodeBlockNum latestBlock : Z)
    (verdict : string) (err : error) :
  tunnel_at localPort (processes s) = Some (service, remotePort) ->
  rpc_server env (clock s) service remotePort (RPCPath node) "eth_blockNumber"
    = Unmarshaled block ->
  parse_prefixed_hex (index block "result") = Return (currentNodeBlockNum, None) ->
  public_api env (S (clock s))
    (default "" (PublicApis config !! nodeName) +:+ "?module=proxy&action=eth_blockNumber")
    = Unmarshaled reference ->
  parse_prefixed_hex (index reference "result") = Return (latestBlock, None) ->
  getSyncStatus status latestBlock = Return (verdict, Some err) ->
  let s' := snd (exec env (after_peers config nodeName node localPort status peersCountNum) s) in
  fst (exec env (after_peers config nodeName node localPort status peersCountNum) s)
    = Return tt
  /\ results s'
     = <[nodeName := {| SyncStatus := verdict;
                        NodeBlockNum := currentNodeBlockNum;
                        LatestBlockNum := latestBlock;
                        Diff := sub64 latestBlock currentNodeBlockNum;
                        PeersCount := peersCountNum |}]> (results s)
  /\ stdout s'
     = (stdout s ++ [("failed to determine node %s sync status: %s\n",
                      [AString nodeName; AError err])])%list.
Proof.
  intros Ht Hb Hbn Hr Hrn Hv. cbv zeta.
  unfold after_peers, mbind, prog_bind.
  rewrite exec_bind, (callRPC_unmarshaled _ _ _ _ _ _ _ _ Ht Hb).
  rewrite exec_bind, Hbn. cbn [lift exec].
  rewrite exec_bind, (fetchLatestBlock_unmarshaled env (tick s) _ _ _ _ Hr Hrn).
  rewrite exec_bind, Hv. cbn [lift exec].
  rewrite exec_bind. simpl. auto.
Qed.

(** With [{startingBlock: "0xzz"}] the check goes as the specification
    says: the error is printed, and the entry is stored with the verdict
    "unknown". *)
Example classification_error_run :
  let s := run Failing.bad_hex_starting_block (Failing.moves 0 12) Failing.one in
  report s
    = Some {[ "eth" := {| SyncStatus := "unknown"; NodeBlockNum := 100;
                          LatestBlockNum := 100; Diff := 0; PeersCount := 5 |} ]}
  /\ stdout s = [("failed to determine node %s sync status: %s\n",
                  [AString "eth"; AError (NumError "ParseInt" "zz" ErrSyntax)])].
Proof. split; vm_compute; reflexivity. Qed.

(** C7, at the failing input.  The node answers [eth_syncing] with
    [{startingBlock: "0"}]: the classifier panics on the slice, and the
    program ends with no result for the node. *)
Theorem C7_short_starting_block_panics :
  getSyncStatus (JObject {[ "startingBlock" := JString "0" ]}) 100
    = Panicked (SliceBounds 2 1)
  /\ crashed (run Failing.short_starting_block (Failing.moves 0 11) Failing.one)
     = Some (SliceBounds 2 1)
  /\ report (run Failing.short_starting_block (Failing.moves 0 11) Failing.one) = None.
Proof. repeat split; vm_compute; reflexivity. Qed.

(** ** Teardown *)

(** [killall kubectl] leaves no tunnel, whoever started it. *)
Lemma kill_by_name_kubectl (procs : list command) :
  open_ports (kill_by_name "kubectl" procs) = [].
Proof.
  induction procs as [|c procs IH]; [reflexivity|].
  destruct c; simpl; exact IH.
Qed.

Lemma teardown_closes_all (env : environment) (s : state) :
  open_ports (processes (snd (handle env (Run (killall "kubectl")) s))) = [].
Proof. simpl. apply kill_by_name_kubectl. Qed.

(** C3, at the failing input.  Two healthy nodes, both tunnels up: the
    check of [eth] runs to its teardown while the check of [bsc] has not
    sent a query yet.  The teardown of [eth] ends the tunnel of [bsc] too,
    and the first query of [bsc] finds no one listening. *)
Theorem C3_teardown_kills_sibling :
  let before := run Sample.all_healthy (List.app Failing.both_up (Failing.moves 0 5)) Failing.two in
  let after := step Sample.all_healthy 0 before in
  open_ports (processes before) = [8082; 8081]
  /\ tunnel_at 8082 (processes before) = Some ("bsc-node", 8545)
  /\ open_ports (processes after) = []
  /\ stdout (run Sample.all_healthy (Failing.moves 1 2) after)
     = [("Error getting sync status for %s: %v\n",
         [AString "bsc"; AError (ExternalError "connection refused")])].
Proof. repeat split; vm_compute; reflexivity. Qed.

(** ** Partial failure *)

(** C2, at the failing input.  The node [eth] fails its first query, the
    node [bsc] is healthy.  When the check of [bsc] runs first, [bsc] is
    in the mapping; when both tunnels come up before the check of [eth]
    fails, the teardown of [eth] fails the check of [bsc], and the mapping
    is empty.  And when [eth] panics on an envelope without [result], the
    mapping that already holds [bsc] is never reported. *)
Theorem C2_failure_not_isolated :
  let bsc_first := List.app (Failing.moves 1 11) (Failing.moves 0 8) in
  let together := List.app Failing.both_up (List.app (Failing.moves 0 4) (Failing.moves 1 4)) in
  (exists m, report (run Failing.eth_down bsc_first Failing.two) = Some m
             /\ m !! "eth" = None
             /\ SyncStatus <$> m !! "bsc" = Some "synced")
  /\ report (run Failing.eth_down together Failing.two) = Some ∅
  /\ (SyncStatus <$> results (run Failing.no_result bsc_first Failing.two) !! "bsc"
        = Some "synced"
      /\ report (run Failing.no_result (List.app bsc_first [0%nat]) Failing.two) = None).
Proof.
  cbv zeta. split; [|split; [|split]].
  - eexists. split; [vm_compute; reflexivity|]. split; vm_compute; reflexivity.
  - vm_compute. reflexivity.
  - vm_compute. reflexivity.
  - vm_compute. reflexivity.
Qed.

(** ** Events of the node checker *)

Lemma forall_events_bind {A B : Type} (P : forall X, event X -> Prop)
    (p : prog A) (f : A -> prog B) :
  forall_events P p -> (forall a, forall_events P (f a)) -> forall_events P (bind p f).
Proof.
  induction p as [a|e|X e k IH]; simpl; intros Hp Hf; auto.
  destruct Hp as [He Hk]. split; auto.
Qed.

Lemma forall_events_defer {A : Type} (P : forall X, event X -> Prop)
    (cleanup : prog unit) (p : prog A) :
  forall_events P cleanup -> forall_events P p -> forall_events P (defer cleanup p).
Proof.
  intros Hc. induction p as [a|e|X e k IH]; simpl; intros Hp.
  - apply forall_events_bind; simpl; auto.
  - apply forall_events_bind; simpl; auto.
  - destruct Hp as [He Hk]. split; auto.
Qed.

Lemma forall_events_lift {A : Type} (P : forall X, event X -> Prop) (g : go A) :
  forall_events P (lift g).
Proof. destruct g; exact I. Qed.

Lemma forall_events_trigger {X : Type} (P : forall X, event X -> Prop) (e : event X) :
  P _ e -> forall_events P (trigger e).
Proof. intros H. split; [exact H|]. intros x. exact I. Qed.

Lemma forall_events_impl {A : Type} (P Q : forall X, event X -> Prop) (p : prog A) :
  (forall X (e : event X), P X e -> Q X e) -> forall_events P p -> forall_events Q p.
Proof.
  intros HPQ. induction p as [a|e|X e k IH]; simpl; auto.
  intros [He Hk]. split; auto.
Qed.

(** Walks down a program built from [bind], [lift], [trigger] and case
    distinctions, leaving the events themselves. *)
Ltac events :=
  repeat first
    [ exact I
    | assumption
    | match goal with
      | |- forall_events _ (lift _) => apply forall_events_lift
      | |- forall_events _ (trigger _) => apply forall_events_trigger
      | |- forall_events _ (bind _ _) => apply forall_events_bind; [|intros ?]
      | |- forall_events _ (mbind _ _) => unfold mbind, prog_bind
      | |- forall_events _ (prog_bind _ _ _ _) => unfold prog_bind
      | |- forall_events _ (mret _) => exact I
      | |- forall_events _ (printf _ _) => unfold printf
      | |- forall_events _ (match ?x with _ => _ end) => is_var x; destruct x
      end ].

Lemma callRPC_events (P : forall X, event X -> Prop) (node : Node) (localPort : Z)
    (method : string) :
  P _ (HttpPost localPort (RPCPath node) method) ->
  forall_events P (callRPC node localPort method).
Proof. intros H. unfold callRPC. events. Qed.

Lemma fetchLatestBlock_events (P : forall X, event X -> Prop) (nodeName apiUrl : string) :
  (forall url, P _ (HttpGet url)) ->
  forall_events P (fetchLatestBlock nodeName apiUrl).
Proof.
  intros H. unfold fetchLatestBlock. events; [apply H|].
  destruct (index _ _); events.
Qed.

Section CheckerEvents.

Variable P : forall X, event X -> Prop.
Variables (config : NodeConfig) (nodeName : string) (node : Node) (localPort : Z).

Hypothesis P_syncing : P _ (HttpPost localPort (RPCPath node) "eth_syncing").
Hypothesis P_blockNumber : P _ (HttpPost localPort (RPCPath node) "eth_blockNumber").
Hypothesis P_peerCount :
  nodeName <> "arb" -> P _ (HttpPost localPort (RPCPath node) "net_peerCount").
Hypothesis P_get : forall url, P _ (HttpGet url).
Hypothesis P_printf :
  forall format err, P _ (Printf format [AString nodeName; AError err]).
Hypothesis P_store :
  forall r, (nodeName = "arb" -> PeersCount r = 0) -> P _ (MapStore nodeName r).

Lemma after_peers_events (status : json) (peersCountNum : Z) :
  (nodeName = "arb" -> peersCountNum = 0) ->
  forall_events P (after_peers config nodeName node localPort status peersCountNum).
Proof.
  intros Hp. unfold after_peers.
  pose proof (callRPC_events P node localPort "eth_blockNumber" P_blockNumber).
  pose proof (fetchLatestBlock_events P nodeName
                (default "" (PublicApis config !! nodeName)) P_get).
  events; try apply P_printf; apply P_store; exact Hp.
Qed.

Lemma queries_events : forall_events P (queries config nodeName node localPort).
Proof.
  unfold queries.
  pose proof (callRPC_events P node localPort "eth_syncing" P_syncing) as Hs.
  events; try apply P_printf.
  cbv zeta. destruct (String.eqb_spec nodeName "arb") as [E|E]; cbn [negb].
  - apply after_peers_events. reflexivity.
  - pose proof (callRPC_events P node localPort "net_peerCount" (P_peerCount E)).
    events; try apply P_printf.
    apply after_peers_events. intros E'. contradiction.
Qed.

Hypothesis P_pipe : forall cmd, P _ (StderrPipe cmd).
Hypothesis P_scan : P _ (GoScanStderr nodeName).
Hypothesis P_sleep : forall n, P _ (Sleep n).
Hypothesis P_killall : P _ (Run (killall "kubectl")).
Hypothesis P_done : P _ WgDone.
Hypothesis P_start :
  P _ (Start (kubectl_port_forward (Service node) localPort (Port node) "blockchains")).

Lemma checker_events : forall_events P (checker config nodeName node localPort).
Proof.
  unfold checker. apply forall_events_defer; [apply forall_events_trigger, P_done|].
  cbv zeta. events; try apply P_printf; try apply P_pipe; try apply P_sleep.
  apply forall_events_defer; [apply forall_events_trigger, P_killall|].
  apply queries_events.
Qed.

End CheckerEvents.

(** ** Local ports and tunnels *)

Lemma never_starts_once {A : Type} (lp : Z) (p : prog A) :
  never_starts p -> starts_once lp p.
Proof.
  unfold never_starts. induction p as [a|e|X e k IH]; simpl; auto.
  intros [He Hk]. rewrite He. auto.
Qed.

Lemma starts_once_defer {A : Type} (lp : Z) (cleanup : prog unit) (p : prog A) :
  never_starts cleanup -> starts_once lp p -> starts_once lp (defer cleanup p).
Proof.
  intros Hc. induction p as [a|e|X e k IH]; simpl.
  - intros _. apply never_starts_once, forall_events_bind; [exact Hc|]. intros; exact I.
  - intros _. apply never_starts_once, forall_events_bind; [exact Hc|]. intros; exact I.
  - destruct (is_start e) as [cmd|].
    + intros [Hcmd Hk]. split; [exact Hcmd|].
      intros x. apply forall_events_defer; [exact Hc|apply Hk].
    + intros Hk x. apply IH, Hk.
Qed.

Lemma checker_starts_once (config : NodeConfig) (nodeName : string) (node : Node)
    (localPort : Z) :
  starts_once localPort (checker config nodeName node localPort).
Proof.
  unfold checker.
  apply starts_once_defer; [apply forall_events_trigger; reflexivity|].
  cbv zeta. unfold mbind, prog_bind, trigger at 1 2.
  cbn [bind starts_once is_start].
  intros [err|]; [apply never_starts_once; unfold never_starts; events; reflexivity|].
  split; [reflexivity|].
  intros [err|]; unfold never_starts; events; try reflexivity.
  apply forall_events_defer; [apply forall_events_trigger; reflexivity|].
  apply queries_events; intros; reflexivity.
Qed.

Lemma open_ports_cons (cmd : command) (procs : list command) :
  open_ports (cmd :: procs) = List.app (open_ports [cmd]) (open_ports procs).
Proof. destruct cmd; reflexivity. Qed.

Lemma open_ports_kill (name : string) (procs : list command) :
  open_ports (kill_by_name name procs) `sublist_of` open_ports procs.
Proof.
  induction procs as [|c procs IH]; [constructor|].
  unfold kill_by_name in *. simpl.
  destruct (negb (command_name c =? name)%string); destruct c; simpl;
    try (constructor; exact IH); exact IH.
Qed.

Lemma handle_goroutines (env : environment) {X : Type} (e : event X) (s : state) :
  goroutines (snd (handle env e s)) = goroutines s.
Proof.
  destruct e; simpl; try reflexivity.
  - destruct (start_error env (clock s) cmd); reflexivity.
  - destruct cmd; reflexivity.
  - destruct (tunnel_at port (processes s)) as [[] |]; reflexivity.
Qed.

(** The tunnels after an event: one more when the event starts a process,
    otherwise those there were, or fewer. *)
Lemma handle_open_ports (env : environment) {X : Type} (e : event X) (s : state) :
  match is_start e with
  | Some cmd =>
      open_ports (processes (snd (handle env e s))) = open_ports (processes s)
      \/ open_ports (processes (snd (handle env e s)))
         = List.app (open_ports [cmd]) (open_ports (processes s))
  | None =>
      open_ports (processes (snd (handle env e s))) `sublist_of` open_ports (processes s)
  end.
Proof.
  destruct e; simpl; try reflexivity.
  - destruct (start_error env (clock s) cmd); simpl; [left; reflexivity|].
    right. apply open_ports_cons.
  - destruct cmd; simpl; [reflexivity|]. apply open_ports_kill.
  - destruct (tunnel_at port (processes s)) as [[] |]; reflexivity.
Qed.

Lemma step_tunnels_distinct (env : environment) (ports : list Z) (i : nat) (s : state) :
  NoDup ports -> tunnels_distinct ports s -> tunnels_distinct ports (step env i s).
Proof.
  intros Hports [Hnd Hall]. unfold step.
  destruct (crashed s); [split; assumption|].
  destruct (goroutines s !! i) as [[a|p|X e k]|] eqn:Hi; try (split; assumption).
  destruct (handle env e s) as [x s'] eqn:Hh.
  pose proof (handle_goroutines env e s) as Hg.
  pose proof (handle_open_ports env e s) as Hp.
  rewrite Hh in Hg, Hp. simpl in Hg, Hp.
  unfold tunnels_distinct. simpl. rewrite Hg.
  destruct (Forall2_lookup_r _ _ _ _ _ Hall Hi) as (lp & Hlp & Hcase).
  apply Forall2_same_length_lookup in Hall as [Hlen Hall].
  destruct (is_start e) as [cmd|] eqn:He.
  - (* the goroutine starts its tunnel *)
    destruct Hcase as [Hnever|[Honce Hfree]].
    { destruct Hnever as [Hnever _]. congruence. }
    simpl in Honce. rewrite He in Honce. destruct Honce as [Hcmd Hk].
    rewrite Hcmd in Hp.
    destruct Hp as [Hp|Hp]; rewrite Hp.
    + split; [assumption|].
      apply Forall2_same_length_lookup_2; [rewrite length_insert; assumption|].
      intros j lp' p' Hj Hj'.
      destruct (decide (i = j)) as [<-|Hij].
      * rewrite list_lookup_insert_eq in Hj' by (eapply lookup_lt_Some; eassumption).
        injection Hj' as <-. left. apply Hk.
      * rewrite list_lookup_insert_ne in Hj' by assumption. eauto.
    + split; [simpl; constructor; assumption|].
      apply Forall2_same_length_lookup_2; [rewrite length_insert; assumption|].
      intros j lp' p' Hj Hj'.
      destruct (decide (i = j)) as [<-|Hij].
      * rewrite list_lookup_insert_eq in Hj' by (eapply lookup_lt_Some; eassumption).
        injection Hj' as <-. left. apply Hk.
      * rewrite list_lookup_insert_ne in Hj' by assumption.
        destruct (Hall j lp' p' Hj Hj') as [Hn|[Ho Hf]]; [left; assumption|].
        right. split; [assumption|]. simpl.
        intros [->|Hin]%elem_of_cons; [|contradiction].
        apply Hij. exact (NoDup_lookup ports i j lp Hports Hlp Hj).
  - (* any other event: the tunnels stay or go *)
    split; [eapply sublist_NoDup; eassumption|].
    apply Forall2_same_length_lookup_2; [rewrite length_insert; assumption|].
    intros j lp' p' Hj Hj'.
    destruct (decide (i = j)) as [<-|Hij].
    + rewrite list_lookup_insert_eq in Hj' by (eapply lookup_lt_Some; eassumption).
      injection Hj' as <-. rewrite Hlp in Hj. injection Hj as <-.
      destruct Hcase as [[_ Hk]|[Honce Hfree]]; [left; apply Hk|].
      simpl in Honce. rewrite He in Honce.
      right. split; [apply Honce|].
      intros Hin. apply Hfree. eapply elem_of_sublist; eassumption.
    + rewrite list_lookup_insert_ne in Hj' by assumption.
      destruct (Hall j lp' p' Hj Hj') as [Hn|[Ho Hf]]; [left; assumption|].
      right. split; [assumption|].
      intros Hin. apply Hf. eapply elem_of_sublist; eassumption.
Qed.

Lemma run_tunnels_distinct (env : environment) (ports : list Z) (schedule : list nat)
    (s : state) :
  NoDup ports -> tunnels_distinct ports s -> tunnels_distinct ports (run env schedule s).
Proof.
  intros Hports. unfold run. revert s.
  induction schedule as [|i schedule IH]; intros s Hs; [exact Hs|].
  simpl. apply IH, step_tunnels_distinct; assumption.
Qed.

Lemma assign_ports_length (all : bool) (nodes : list (string * Node)) (counter : Z) :
  List.length (assign_ports all nodes counter) = List.length nodes.
Proof.
  revert counter. induction nodes as [|[nodeName node] nodes IH]; intros counter;
    [reflexivity|].
  simpl. destruct all; simpl; rewrite IH; reflexivity.
Qed.

(** With all the nodes selected the ports count up from [8080 + counter]. *)
Lemma assign_ports_all_range (nodes : list (string * Node)) (counter p : Z) :
  p ∈ (assign_ports true nodes counter).*2 ->
  8080 + counter <= p < 8080 + counter + Z.of_nat (List.length nodes).
Proof.
  revert counter. induction nodes as [|[nodeName node] nodes IH]; intros counter; simpl.
  - intros H. inversion H.
  - intros [->|H]%elem_of_cons; [lia|]. apply IH in H. lia.
Qed.

Lemma assign_ports_all_NoDup (nodes : list (string * Node)) (counter : Z) :
  NoDup (assign_ports true nodes counter).*2.
Proof.
  revert counter. induction nodes as [|[nodeName node] nodes IH]; intros counter; simpl.
  - constructor.
  - constructor; [|apply IH].
    intros H%assign_ports_all_range. lia.
Qed.

Lemma launch_tunnels_distinct (config : NodeConfig) (all : bool)
    (nodes : list (string * Node)) :
  tunnels_distinct (assign_ports all nodes 1).*2 (launch config all nodes).
Proof.
  split; [constructor|]. simpl.
  apply Forall2_fmap_2, Forall_Forall2_diag, Forall_forall.
  intros [[nodeName node] lp] _. right. split; [apply checker_starts_once|].
  simpl. apply not_elem_of_nil.
Qed.

(** What [select] can select: all the configured nodes, or one of them. *)
Lemma select_cases (os_args : list string) (config : NodeConfig) (all : bool)
    (nodes : gmap string Node) :
  select os_args config = Selected all nodes ->
  (all = true /\ nodes = Nodes config)
  \/ (all = false /\ exists chainName node, nodes = {[ chainName := node ]}).
Proof.
  unfold select.
  destruct (2 <? Z.of_nat (List.length os_args)); [discriminate|].
  destruct (Z.of_nat (List.length os_args) =? 1).
  - intros [= <- <-]. left. split; reflexivity.
  - destruct (os_args !! 1%nat) as [chainName|]; [|discriminate].
    destruct (Nodes config !! chainName) as [node|]; [|discriminate].
    intros [= <- <-]. right. split; [reflexivity|]. eauto.
Qed.

(** C8.  Whatever the arguments select and in whatever order the map of
    nodes is walked, there is one local port for each node, no port is
    given twice, all lie between 8080 and 8080 plus the number of nodes,
    and at no point of any run do two open tunnels share a local port. *)
Theorem C8_distinct_local_ports (os_args : list string) (config : NodeConfig)
    (all : bool) (nodes : gmap string Node) (order : list (string * Node))
    (env : environment) (schedule : list nat) :
  select os_args config = Selected all nodes ->
  order ≡ₚ map_to_list nodes ->
  List.length (assign_ports all order 1).*2 = size nodes
  /\ NoDup (assign_ports all order 1).*2
  /\ (forall p, p ∈ (assign_ports all order 1).*2 ->
                8080 <= p <= 8080 + Z.of_nat (size nodes))
  /\ NoDup (open_ports (processes (run env schedule (launch config all order)))).
Proof.
  intros Hsel Horder.
  assert (Hlen : List.length order = size nodes).
  { rewrite <- length_map_to_list. apply Permutation_length, Horder. }
  assert (Hnd : NoDup (assign_ports all order 1).*2
                /\ forall p, p ∈ (assign_ports all order 1).*2 ->
                             8080 <= p <= 8080 + Z.of_nat (size nodes)).
  { destruct (select_cases _ _ _ _ Hsel) as [[-> _]|(-> & chainName & node & ->)].
    - split; [apply assign_ports_all_NoDup|].
      intros p H%assign_ports_all_range. lia.
    - rewrite map_to_list_singleton in Horder.
      apply Permutation_singleton_r in Horder as ->. simpl.
      split; [apply NoDup_singleton|].
      intros p ->%list_elem_of_singleton. rewrite map_size_singleton. lia. }
  destruct Hnd as [Hnd Hrange].
  split; [|split; [exact Hnd|split; [exact Hrange|]]].
  - rewrite length_fmap, assign_ports_length. exact Hlen.
  - apply (run_tunnels_distinct env (assign_ports all order 1).*2 schedule);
      [exact Hnd|apply launch_tunnels_distinct].
Qed.

Lemma C8_distinct_local_ports_witness :
  List.length (assign_ports true [("eth", Sample.eth); ("bsc", Sample.bsc)] 1).*2
    = size (Nodes Sample.config)
  /\ NoDup (assign_ports true [("eth", Sample.eth); ("bsc", Sample.bsc)] 1).*2
  /\ (forall p, p ∈ (assign_ports true [("eth", Sample.eth); ("bsc", Sample.bsc)] 1).*2 ->
                8080 <= p <= 8080 + Z.of_nat (size (Nodes Sample.config)))
  /\ NoDup (open_ports (processes
       (run Sample.all_healthy Failing.both_up
          (launch Sample.config true [("eth", Sample.eth); ("bsc", Sample.bsc)])))).
Proof.
  apply (C8_distinct_local_ports ["nodestat"] Sample.config true (Nodes Sample.config)).
  - reflexivity.
  - vm_compute. reflexivity.
Defined.

(** ** The chain without a peer count *)



Lemma handle_results (env : environment) {X : Type} (e : event X) (s : state) :
  results (snd (handle env e s))
    = match stores e with
      | Some (nodeName, r) => <[nodeName := r]> (results s)
      | None => results s
      end.
Proof.
  destruct e; simpl; try reflexivity.
  - destruct (start_error env (clock s) cmd); reflexivity.
  - destruct cmd; reflexivity.
  - destruct (tunnel_at port (processes s)) as [[] |]; reflexivity.
Qed.






(** ** A failed check stores nothing *)

Lemma store_xor_fail_bind {A B : Type} (nodeName : string) (p : prog A)
    (f : A -> prog B) :
  forall_events (foreign nodeName) p ->
  (forall a, store_xor_fail nodeName (f a)) ->
  store_xor_fail nodeName (bind p f).
Proof.
  intros Hp Hf. induction p as [a|e|X e k IH]; simpl.
  - apply Hf.
  - auto.
  - destruct Hp as [He Hk]. right. right. split; [exact He|].
    intros x. apply IH, Hk.
Qed.

Lemma never_stores_xor_fail {A : Type} (nodeName : string) (p : prog A) :
  forall_events (no_store nodeName) p -> store_xor_fail nodeName p.
Proof. destruct p; simpl; auto. Qed.

Lemma never_fails_xor_fail {A : Type} (nodeName : string) (p : prog A) :
  forall_events (no_failure nodeName) p -> store_xor_fail nodeName p.
Proof. destruct p; simpl; auto. Qed.

Lemma foreign_no_store {A : Type} (nodeName : string) (p : prog A) :
  forall_events (foreign nodeName) p -> forall_events (no_store nodeName) p.
Proof. apply forall_events_impl. intros X e [H _]. exact H. Qed.

Lemma foreign_no_failure {A : Type} (nodeName : string) (p : prog A) :
  forall_events (foreign nodeName) p -> forall_events (no_failure nodeName) p.
Proof. apply forall_events_impl. intros X e [_ H]. exact H. Qed.

Lemma store_xor_fail_defer {A : Type} (nodeName : string) (cleanup : prog unit)
    (p : prog A) :
  forall_events (foreign nodeName) cleanup ->
  store_xor_fail nodeName p ->
  store_xor_fail nodeName (defer cleanup p).
Proof.
  intros Hc. induction p as [a|e|X e k IH]; intros Hp.
  - apply never_stores_xor_fail, forall_events_defer; [|exact I].
    apply foreign_no_store, Hc.
  - apply never_stores_xor_fail, forall_events_defer; [|exact I].
    apply foreign_no_store, Hc.
  - destruct Hp as [Hp|[Hp|[He Hk]]].
    + apply never_stores_xor_fail, forall_events_defer; [|exact Hp].
      apply foreign_no_store, Hc.
    + apply never_fails_xor_fail, forall_events_defer; [|exact Hp].
      apply foreign_no_failure, Hc.
    + simpl. right. right. split; [exact He|]. intros x. apply IH, Hk.
Qed.

Ltac foreign_event :=
  split; [intros ? ?; discriminate | intros ? ?; discriminate].

Lemma failure_printf_never_stores (nodeName format : string) (args : list arg) :
  forall_events (no_store nodeName) (printf format args).
Proof. apply forall_events_trigger. intros r H. discriminate. Qed.

Lemma after_peers_store_xor_fail (config : NodeConfig) (nodeName : string)
    (node : Node) (localPort : Z) (status : json) (peersCountNum : Z) :
  store_xor_fail nodeName (after_peers config nodeName node localPort status peersCountNum).
Proof.
  unfold after_peers, mbind, prog_bind.
  apply store_xor_fail_bind; [apply callRPC_events; foreign_event|].
  intros [currentNodeBlock [err|]];
    [apply never_stores_xor_fail, failure_printf_never_stores|].
  apply store_xor_fail_bind; [apply forall_events_lift|].
  intros [currentNodeBlockNum [err|]];
    [apply never_stores_xor_fail, failure_printf_never_stores|].
  apply store_xor_fail_bind; [apply fetchLatestBlock_events; intros; foreign_event|].
  intros [latestBlock [err|]];
    [apply never_stores_xor_fail, failure_printf_never_stores|].
  apply never_fails_xor_fail. events.
  - intros line [= <-]. simpl. apply andb_false_r.
  - intros line H. discriminate.
Qed.

Lemma queries_store_xor_fail (config : NodeConfig) (nodeName : string)
    (node : Node) (localPort : Z) :
  store_xor_fail nodeName (queries config nodeName node localPort).
Proof.
  unfold queries, mbind, prog_bind.
  apply store_xor_fail_bind; [apply callRPC_events; foreign_event|].
  intros [status [err|]];
    [apply never_stores_xor_fail, failure_printf_never_stores|].
  cbv zeta. destruct (negb (nodeName =? "arb")%string);
    [|apply after_peers_store_xor_fail].
  apply store_xor_fail_bind; [apply callRPC_events; foreign_event|].
  intros [peersCount [err|]];
    [apply never_stores_xor_fail, failure_printf_never_stores|].
  apply store_xor_fail_bind; [apply forall_events_lift|].
  intros [peersCountNum [err|]];
    [apply never_stores_xor_fail, failure_printf_never_stores|].
  apply after_peers_store_xor_fail.
Qed.

Lemma checker_store_xor_fail (config : NodeConfig) (nodeName : string)
    (node : Node) (localPort : Z) :
  store_xor_fail nodeName (checker config nodeName node localPort).
Proof.
  unfold checker.
  apply store_xor_fail_defer; [apply forall_events_trigger; foreign_event|].
  cbv zeta. unfold mbind, prog_bind.
  apply store_xor_fail_bind; [apply forall_events_trigger; foreign_event|].
  intros [err|]; [apply never_stores_xor_fail, failure_printf_never_stores|].
  apply store_xor_fail_bind; [apply forall_events_trigger; foreign_event|].
  intros [err|]; [apply never_stores_xor_fail, failure_printf_never_stores|].
  apply store_xor_fail_bind; [apply forall_events_trigger; foreign_event|]. intros _.
  apply store_xor_fail_bind; [apply forall_events_trigger; foreign_event|]. intros _.
  apply store_xor_fail_defer; [apply forall_events_trigger; foreign_event|].
  apply queries_store_xor_fail.
Qed.

(** The goroutine of another node leaves the entry and the failures of
    [nodeName] alone. *)
Lemma checker_foreign (config : NodeConfig) (nodeName other : string)
    (node : Node) (localPort : Z) :
  other <> nodeName ->
  forall_events (foreign nodeName) (checker config other node localPort).
Proof.
  intros Hne. apply checker_events; try (intros; foreign_event).
  - intros format err. split; [intros r H; discriminate|].
    intros line [= <-]. simpl.
    destruct (String.eqb_spec other nodeName); [contradiction|reflexivity].
  - intros r _. split; [|intros line H; discriminate].
    intros r' [= E _]. contradiction.
Qed.

Lemma handle_stdout (env : environment) {X : Type} (e : event X) (s : state) :
  stdout (snd (handle env e s))
    = match prints e with
      | Some line => (stdout s ++ [line])%list
      | None => stdout s
      end.
Proof.
  destruct e; simpl; try reflexivity.
  - destruct (start_error env (clock s) cmd); reflexivity.
  - destruct cmd; reflexivity.
  - destruct (tunnel_at port (processes s)) as [[] |]; reflexivity.
Qed.

(** An event that writes no entry of the node leaves the node without
    entry; one that reports no failure of it leaves it without failure. *)
Lemma handle_no_store (env : environment) {X : Type} (e : event X) (s : state)
    (nodeName : string) :
  no_store nodeName X e ->
  results s !! nodeName = None ->
  results (snd (handle env e s)) !! nodeName = None.
Proof.
  intros He Hs. rewrite handle_results.
  destruct (stores e) as [[m r]|] eqn:E; [|exact Hs].
  rewrite lookup_insert_ne; [exact Hs|].
  intros ->. exact (He r E).
Qed.

Lemma handle_no_failure (env : environment) {X : Type} (e : event X) (s : state)
    (nodeName : string) :
  no_failure nodeName X e ->
  no_failure_printed nodeName (stdout s) ->
  no_failure_printed nodeName (stdout (snd (handle env e s))).
Proof.
  intros He Hs. rewrite handle_stdout. unfold no_failure_printed.
  destruct (prints e) as [line|] eqn:E; [|exact Hs].
  apply Forall_app. split; [exact Hs|]. constructor; [|constructor].
  apply He. exact E.
Qed.

(** One goroutine moves on: what held of each goroutine under [Q] holds
    under [Q'], given it does of the one that moved and carries over for
    the others. *)
Lemma Forall2_goroutine_moves (Q Q' : string -> prog unit -> Prop)
    (names : list string) (gs : list (prog unit)) (i : nat) (m : string)
    (q : prog unit) :
  Forall2 Q names gs ->
  names !! i = Some m ->
  Q' m q ->
  (forall j m' p, j <> i -> names !! j = Some m' -> Q m' p -> Q' m' p) ->
  Forall2 Q' names (<[i := q]> gs).
Proof.
  intros [Hlen Hall]%Forall2_same_length_lookup Hm Hq Hothers.
  apply Forall2_same_length_lookup_2; [rewrite length_insert; exact Hlen|].
  intros j m' p Hj Hp.
  destruct (decide (i = j)) as [<-|Hij].
  - rewrite list_lookup_insert_eq in Hp
      by (rewrite <- Hlen; eapply lookup_lt_Some; eassumption).
    injection Hp as <-. rewrite Hm in Hj. injection Hj as <-. exact Hq.
  - rewrite list_lookup_insert_ne in Hp by assumption.
    apply (Hothers j m' p); [congruence|exact Hj|exact (Hall j m' p Hj Hp)].
Qed.

Lemma step_isolated_entry (env : environment) (nodeName : string)
    (names : list string) (i : nat) (s : state) :
  NoDup names ->
  isolated_entry nodeName names s ->
  isolated_entry nodeName names (step env i s).
Proof.
  intros Hnd [Hfor Hcase]. unfold step.
  destruct (crashed s); [split; assumption|].
  destruct (goroutines s !! i) as [[a|p|X e k]|] eqn:Hi; try (split; assumption).
  pose proof (handle_goroutines env e s) as Hg.
  pose proof (handle_no_store env e s nodeName) as Hres.
  pose proof (handle_no_failure env e s nodeName) as Hout.
  destruct (handle env e s) as [x s']. simpl in Hg, Hres, Hout.
  destruct (Forall2_lookup_r _ _ _ _ _ Hfor Hi) as (m & Hm & Hforeign).
  assert (Honly : m = nodeName ->
                  forall j m', j <> i -> names !! j = Some m' -> m' <> nodeName).
  { intros -> j m' Hj Hm' ->. apply Hj.
    exact (NoDup_lookup names j i nodeName Hnd Hm' Hm). }
  unfold isolated_entry. simpl. rewrite Hg.
  destruct (decide (m = nodeName)) as [Heq|Hne].
  - (* the goroutine of the node itself *)
    split.
    { apply (Forall2_goroutine_moves _ _ _ _ _ _ _ Hfor Hm); [contradiction|auto]. }
    destruct Hcase as [(Hnone & Hquiet & Hall)|[(Hnone & Hall)|(Hquiet & Hall)]].
    + destruct (Forall2_lookup_lr _ _ _ _ _ _ Hall Hm Hi Heq)
        as [[He Hk]|[[He Hk]|[[Hs Hf] Hk]]].
      * right. left. split; [auto|].
        apply (Forall2_goroutine_moves _ _ _ _ _ _ _ Hall Hm); [intros _; apply Hk|].
        intros j m' p Hj Hm' _ Hmn. destruct (Honly Heq j m' Hj Hm' Hmn).
      * right. right. split; [auto|].
        apply (Forall2_goroutine_moves _ _ _ _ _ _ _ Hall Hm); [intros _; apply Hk|].
        intros j m' p Hj Hm' _ Hmn. destruct (Honly Heq j m' Hj Hm' Hmn).
      * left. split; [auto|]. split; [auto|].
        apply (Forall2_goroutine_moves _ _ _ _ _ _ _ Hall Hm); [intros _; apply Hk|auto].
    + destruct (Forall2_lookup_lr _ _ _ _ _ _ Hall Hm Hi Heq) as [He Hk].
      right. left. split; [auto|].
      apply (Forall2_goroutine_moves _ _ _ _ _ _ _ Hall Hm); [intros _; apply Hk|auto].
    + destruct (Forall2_lookup_lr _ _ _ _ _ _ Hall Hm Hi Heq) as [He Hk].
      right. right. split; [auto|].
      apply (Forall2_goroutine_moves _ _ _ _ _ _ _ Hall Hm); [intros _; apply Hk|auto].
  - (* the goroutine of another node *)
    destruct (Hforeign Hne) as [[Hs Hf] Hk].
    split.
    { apply (Forall2_goroutine_moves _ _ _ _ _ _ _ Hfor Hm); [intros _; apply Hk|auto]. }
    destruct Hcase as [(Hnone & Hquiet & Hall)|[(Hnone & Hall)|(Hquiet & Hall)]].
    + left. split; [auto|]. split; [auto|].
      apply (Forall2_goroutine_moves _ _ _ _ _ _ _ Hall Hm); [contradiction|auto].
    + right. left. split; [auto|].
      apply (Forall2_goroutine_moves _ _ _ _ _ _ _ Hall Hm); [contradiction|auto].
    + right. right. split; [auto|].
      apply (Forall2_goroutine_moves _ _ _ _ _ _ _ Hall Hm); [contradiction|auto].
Qed.

Lemma run_isolated_entry (env : environment) (nodeName : string)
    (names : list string) (schedule : list nat) (s : state) :
  NoDup names ->
  isolated_entry nodeName names s ->
  isolated_entry nodeName names (run env schedule s).
Proof.
  intros Hnd. unfold run. revert s.
  induction schedule as [|i schedule IH]; intros s Hs; [exact Hs|].
  simpl. apply IH, step_isolated_entry; assumption.
Qed.

Lemma assign_ports_names (all : bool) (nodes : list (string * Node)) (counter : Z) :
  (assign_ports all nodes counter).*1.*1 = nodes.*1.
Proof.
  revert counter. induction nodes as [|[nodeName node] nodes IH]; intros counter;
    [reflexivity|].
  simpl. destruct all; simpl; rewrite IH; reflexivity.
Qed.

Lemma launch_isolated_entry (config : NodeConfig) (all : bool)
    (nodes : list (string * Node)) (nodeName : string) :
  isolated_entry nodeName nodes.*1 (launch config all nodes).
Proof.
  rewrite <- (assign_ports_names all nodes 1), <- list_fmap_compose.
  split; [|left; split; [apply lookup_empty|split; [constructor|]]]; simpl.
  - apply Forall2_fmap_2, Forall_Forall2_diag, Forall_forall.
    intros [[m node] lp] _. simpl. intros Hne. apply checker_foreign, Hne.
  - apply Forall2_fmap_2, Forall_Forall2_diag, Forall_forall.
    intros [[m node] lp] _. simpl. intros ->. apply checker_store_xor_fail.
Qed.

(** X13.  The part of partial-failure isolation that holds.  The names of the
    nodes being distinct, as the keys of a map are, in no run does a node
    have both an entry in [results] and a reported failure. *)
Theorem failed_check_stores_nothing (config : NodeConfig) (all : bool)
    (nodes : list (string * Node)) (env : environment) (schedule : list nat)
    (nodeName : string) :
  NoDup nodes.*1 ->
  results (run env schedule (launch config all nodes)) !! nodeName = None
  \/ no_failure_printed nodeName (stdout (run env schedule (launch config all nodes))).
Proof.
  intros Hnd.
  destruct (run_isolated_entry env nodeName nodes.*1 schedule _ Hnd
              (launch_isolated_entry config all nodes nodeName))
    as [_ [(H & _)|[(H & _)|(H & _)]]]; auto.
Qed.

(** * Further properties *)

(** ** Invariants of a run *)

Lemma run_invariant (Inv : state -> Prop) (env : environment) (schedule : list nat)
    (s : state) :
  (forall i s, Inv s -> Inv (step env i s)) ->
  Inv s -> Inv (run env schedule s).
Proof.
  intros Hstep. unfold run. revert s.
  induction schedule as [|i schedule IH]; intros s Hs; [exact Hs|].
  simpl. apply IH, Hstep, Hs.
Qed.

Lemma handle_wg (env : environment) {X : Type} (e : event X) (s : state) :
  wg (snd (handle env e s)) = wg s - (if is_done e then 1 else 0).
Proof.
  destruct e; simpl; try lia.
  - destruct (start_error env (clock s) cmd); simpl; lia.
  - destruct cmd; simpl; lia.
  - destruct (tunnel_at port (processes s)) as [[] |]; simpl; lia.
Qed.

(** ** The wait group *)

Lemma pending_nonneg (flags : list bool) : 0 <= pending flags.
Proof. induction flags as [|[] flags IH]; simpl; lia. Qed.

Lemma pending_insert (flags : list bool) (i : nat) (b b' : bool) :
  flags !! i = Some b ->
  pending (<[i := b']> flags)
    = pending flags - (if b then 1 else 0) + (if b' then 1 else 0).
Proof.
  revert i. induction flags as [|c flags IH]; intros [|i] H; try discriminate.
  - injection H as ->. simpl. lia.
  - simpl in *. rewrite (IH i H). lia.
Qed.

Lemma pending_zero (flags : list bool) :
  pending flags = 0 -> Forall (fun b => b = false) flags.
Proof.
  induction flags as [|b flags IH]; simpl; intros H; constructor.
  - pose proof (pending_nonneg flags). destruct b; [lia|reflexivity].
  - apply IH. pose proof (pending_nonneg flags). destruct b; lia.
Qed.

Lemma defer_done_ends_with_done {A : Type} (p : prog A) :
  forall_events (fun _ e => is_done e = false) p ->
  ends_with_done (defer (trigger WgDone) p).
Proof.
  induction p as [a|e|X e k IH]; simpl; try (intros _ x; exact I).
  intros [He Hk]. rewrite He. intros x. apply IH, Hk.
Qed.

Lemma checker_ends_with_done (config : NodeConfig) (nodeName : string) (node : Node)
    (localPort : Z) :
  ends_with_done (checker config nodeName node localPort).
Proof.
  unfold checker. apply defer_done_ends_with_done.
  cbv zeta. events; try reflexivity.
  apply forall_events_defer; [apply forall_events_trigger; reflexivity|].
  apply queries_events; intros; reflexivity.
Qed.

Lemma step_barrier (env : environment) (i : nat) (s : state) :
  barrier s -> barrier (step env i s).
Proof.
  intros (flags & Hall & Hwg). unfold step.
  destruct (crashed s); [exists flags; split; assumption|].
  destruct (goroutines s !! i) as [[a|p|X e k]|] eqn:Hi;
    try (exists flags; split; assumption).
  pose proof (handle_goroutines env e s) as Hg.
  pose proof (handle_wg env e s) as Hw.
  destruct (handle env e s) as [x s']. simpl in Hg, Hw.
  destruct (Forall2_lookup_r _ _ _ _ _ Hall Hi) as (b & Hb & Hp).
  destruct b; [|destruct Hp]. simpl in Hp.
  exists (<[i := negb (is_done e)]> flags). simpl. rewrite Hg. split.
  - apply Forall2_insert; [exact Hall|].
    destruct (is_done e); simpl; apply Hp.
  - rewrite (pending_insert _ _ _ _ Hb), Hw, Hwg.
    destruct (is_done e); simpl; lia.
Qed.

Lemma launch_barrier (config : NodeConfig) (all : bool) (nodes : list (string * Node)) :
  barrier (launch config all nodes).
Proof.
  exists (List.map (fun _ => true) (assign_ports all nodes 1)). simpl. split.
  - induction (assign_ports all nodes 1) as [|[[n node] lp] l IH]; constructor.
    + apply checker_ends_with_done.
    + exact IH.
  - induction (assign_ports all nodes 1) as [|x l IH]; [reflexivity|].
    simpl List.length. rewrite Nat2Z.inj_succ. simpl. lia.
Qed.

Lemma barrier_open (s : state) :
  barrier s -> wg s = 0 -> Forall finished (goroutines s).
Proof.
  intros (flags & Hall & Hwg) H0. rewrite Hwg in H0.
  apply pending_zero in H0.
  apply Forall_forall. intros p Hp.
  apply list_elem_of_lookup in Hp as [i Hi].
  destruct (Forall2_lookup_r _ _ _ _ _ Hall Hi) as (b & Hb & Hq).
  assert (b = false) as ->.
  { eapply (proj1 (Forall_forall _ _) H0). eapply list_elem_of_lookup_2, Hb. }
  exact Hq.
Qed.

Lemma report_wg (s : state) (m : gmap string Result) :
  report s = Some m -> crashed s = None /\ wg s = 0 /\ m = results s.
Proof.
  unfold report. destruct (crashed s); [discriminate|].
  destruct (Z.eqb_spec (wg s) 0); [|discriminate].
  intros [= <-]. auto.
Qed.

(** Once every goroutine is finished no step changes the mapping. *)
Lemma finished_results_stable (env : environment) (schedule : list nat) (s : state) :
  Forall finished (goroutines s) ->
  results (run env schedule s) = results s.
Proof.
  intros Hf.
  apply (run_invariant
           (fun s' => Forall finished (goroutines s') /\ results s' = results s));
    [|split; [exact Hf|reflexivity]].
  clear. intros i s' [Hf Hr]. unfold step.
  destruct (crashed s'); [split; assumption|].
  destruct (goroutines s' !! i) as [[a|p|X e k]|] eqn:Hi; try (split; assumption).
  destruct (proj1 (Forall_lookup _ _) Hf i _ Hi).
Qed.

(** X3.  The barrier.  In every run, by the time [wg.Wait()] returns every
    goroutine is finished and the mapping read after the wait is final: no
    later step of any goroutine changes it. *)
Theorem reported_mapping_is_final (config : NodeConfig) (all : bool)
    (nodes : list (string * Node)) (env : environment) (schedule later : list nat)
    (m : gmap string Result) :
  report (run env schedule (launch config all nodes)) = Some m ->
  Forall finished (goroutines (run env schedule (launch config all nodes)))
  /\ results (run env later (run env schedule (launch config all nodes))) = m.
Proof.
  intros (_ & Hwg & ->)%report_wg.
  assert (Hf : Forall finished (goroutines (run env schedule (launch config all nodes)))).
  { apply barrier_open; [|exact Hwg].
    apply run_invariant; [apply step_barrier|apply launch_barrier]. }
  split; [exact Hf|]. apply finished_results_stable, Hf.
Qed.

Lemma reported_mapping_is_final_witness :
  Forall finished (goroutines (run Sample.all_healthy (Failing.moves 0 11) Failing.one))
  /\ results (run Sample.all_healthy [0%nat; 0%nat]
                (run Sample.all_healthy (Failing.moves 0 11) Failing.one))
     = {[ "eth" := {| SyncStatus := "synced"; NodeBlockNum := 100;
                      LatestBlockNum := 100; Diff := 0; PeersCount := 5 |} ]}.
Proof.
  apply (reported_mapping_is_final Sample.config false [("eth", Sample.eth)]).
  vm_compute. reflexivity.
Defined.

(** X4.  The counter of the wait group is never negative and never above the
    number of goroutines. *)
Theorem wait_group_counter_bounds (config : NodeConfig) (all : bool)
    (nodes : list (string * Node)) (env : environment) (schedule : list nat) :
  0 <= wg (run env schedule (launch config all nodes)) <= Z.of_nat (List.length nodes).
Proof.
  assert (H : barrier (run env schedule (launch config all nodes))
              /\ List.length (goroutines (run env schedule (launch config all nodes)))
                 = List.length nodes).
  { apply (run_invariant
             (fun s => barrier s /\ List.length (goroutines s) = List.length nodes)).
    - intros i s [Hb Hl]. split; [apply step_barrier, Hb|].
      unfold step. destruct (crashed s); [exact Hl|].
      destruct (goroutines s !! i) as [[a|p|X e k]|] eqn:Hi; try exact Hl.
      pose proof (handle_goroutines env e s) as Hg.
      destruct (handle env e s) as [x s']. simpl in *.
      rewrite length_insert, Hg. exact Hl.
    - split; [apply launch_barrier|]. simpl.
      rewrite length_fmap. apply assign_ports_length. }
  destruct H as [(flags & Hall & ->) Hl].
  apply Forall2_length in Hall. rewrite <- Hl, <- Hall.
  clear. induction flags as [|[] flags IH]; simpl List.length;
    rewrite ?Nat2Z.inj_succ; simpl; lia.
Qed.

(** ** The tunnels and the teardown *)












(** ** One check on its own: the cleanup on every exit *)




Lemma handle_leaves_processes (env : environment) {X : Type} (e : event X) (s : state) :
  leaves_processes e = true -> processes (snd (handle env e s)) = processes s.
Proof.
  destruct e; try discriminate; try reflexivity. simpl.
  destruct (tunnel_at port (processes s)) as [[] |]; reflexivity.
Qed.

Lemma exec_leaves_processes {A : Type} (env : environment) (p : prog A) (s : state) :
  forall_events (fun _ e => leaves_processes e = true) p ->
  processes (snd (exec env p s)) = processes s.
Proof.
  revert s. induction p as [a|e|X e k IH]; intros s; simpl; auto.
  intros [He Hk]. pose proof (handle_leaves_processes env e s He) as Hp.
  destruct (handle env e s) as [x s']. simpl in Hp.
  rewrite (IH x (tick s') (Hk x)). exact Hp.
Qed.



(** ** What the goroutines store *)

Lemma forall_events_bind_returns {A B : Type} (P : forall X, event X -> Prop)
    (p : prog A) (f : A -> prog B) :
  forall_events P p ->
  (forall a, returns_under any_answer p a -> forall_events P (f a)) ->
  forall_events P (bind p f).
Proof.
  induction p as [a|e|X e k IH]; simpl; intros Hp Hf; auto.
  destruct Hp as [He Hk]. split; [exact He|].
  intros x. apply IH; [apply Hk|].
  intros a Ha. apply Hf. exists x. split; [exact I|exact Ha].
Qed.

Lemma returns_lift {A : Type} (Q : forall X, event X -> X -> Prop) (g : go A) (a : A) :
  returns_under Q (lift g) a -> g = Return a.
Proof. destruct g; simpl; [intros ->; reflexivity|contradiction]. Qed.

Lemma step_results_satisfy (Q : string -> Result -> Prop) (env : environment)
    (i : nat) (s : state) :
  results_satisfy Q s -> results_satisfy Q (step env i s).
Proof.
  intros [Hres Hall]. unfold step.
  destruct (crashed s); [split; assumption|].
  destruct (goroutines s !! i) as [[a|p|X e k]|] eqn:Hi; try (split; assumption).
  pose proof (handle_goroutines env e s) as Hg.
  pose proof (handle_results env e s) as Hr.
  destruct (handle env e s) as [x s']. simpl in Hg, Hr.
  pose proof (proj1 (Forall_lookup _ _) Hall i _ Hi) as [He Hk].
  split; simpl.
  - rewrite Hr. destruct (stores e) as [[nodeName r]|] eqn:Hs; [|exact Hres].
    intros n r' Hn. destruct (decide (nodeName = n)) as [->|Hne].
    + rewrite lookup_insert_eq in Hn. injection Hn as <-. apply He. exact Hs.
    + rewrite lookup_insert_ne in Hn by assumption. apply Hres, Hn.
  - rewrite Hg. apply Forall_insert; [exact Hall|apply Hk].
Qed.

Lemma launch_results_satisfy (Q : string -> Result -> Prop) (config : NodeConfig)
    (all : bool) (nodes : list (string * Node)) :
  (forall nodeName node localPort,
      (nodeName, node) ∈ nodes ->
      forall_events (stores_only Q) (checker config nodeName node localPort)) ->
  results_satisfy Q (launch config all nodes).
Proof.
  intros Hc. split; simpl.
  - intros n r H. rewrite lookup_empty in H. discriminate.
  - apply Forall_fmap, Forall_forall. intros [[nodeName node] lp] Hin.
    apply Hc. clear Hc. revert Hin. generalize 1.
    induction nodes as [|[n0 node0] nodes IH]; intros c Hin; simpl in Hin.
    + inversion Hin.
    + destruct all; apply elem_of_cons in Hin as [[= -> -> ->]|Hin];
        try (left; fail); right; eapply IH; eassumption.
Qed.

(** *** The keys of the mapping *)

Lemma checker_stores_own_name (config : NodeConfig) (nodeName : string) (node : Node)
    (localPort : Z) (Q : string -> Result -> Prop) :
  (forall r, Q nodeName r) ->
  forall_events (stores_only Q) (checker config nodeName node localPort).
Proof.
  intros HQ. apply checker_events; try (intros; intros ? ? ?; discriminate).
  intros r _ n r' [= <- <-]. apply HQ.
Qed.

Lemma select_subseteq (os_args : list string) (config : NodeConfig)
    (all : bool) (nodes : gmap string Node) :
  select os_args config = Selected all nodes -> nodes ⊆ Nodes config.
Proof.
  unfold select.
  destruct (2 <? Z.of_nat (List.length os_args)); [discriminate|].
  destruct (Z.of_nat (List.length os_args) =? 1).
  - intros [= <- <-]. reflexivity.
  - destruct (os_args !! 1%nat) as [chainName|]; [|discriminate].
    destruct (Nodes config !! chainName) as [node|] eqn:Hn; [|discriminate].
    intros [= <- <-]. apply map_singleton_subseteq_l, Hn.
Qed.



(** X2.  The keys of the mapping are selected nodes of the registry: whatever
    the arguments select, in whatever order the map is walked and however
    the goroutines interleave, an entry of [results] is under the name of
    a node that [select] selected, hence of a configured one. *)
Theorem results_keys_selected (os_args : list string) (config : NodeConfig)
    (all : bool) (nodes : gmap string Node) (order : list (string * Node))
    (env : environment) (schedule : list nat) (nodeName : string) (r : Result) :
  select os_args config = Selected all nodes ->
  order ≡ₚ map_to_list nodes ->
  results (run env schedule (launch config all order)) !! nodeName = Some r ->
  is_Some (nodes !! nodeName) /\ is_Some (Nodes config !! nodeName).
Proof.
  intros Hsel Horder Hr.
  assert (Hin : is_Some (nodes !! nodeName)).
  { assert (H : results_satisfy (fun n _ => is_Some (nodes !! n))
                  (run env schedule (launch config all order))).
    { apply run_invariant; [apply step_results_satisfy|].
      apply launch_results_satisfy. intros n node lp Hn.
      apply checker_stores_own_name. intros _.
      rewrite Horder in Hn. apply elem_of_map_to_list in Hn. eauto. }
    destruct H as [H _]. exact (H nodeName r Hr). }
  split; [exact Hin|].
  destruct Hin as [node Hnode].
  pose proof (select_subseteq _ _ _ _ Hsel) as Hsub.
  exists node. eapply lookup_weaken; eassumption.
Qed.

Lemma results_keys_selected_witness :
  is_Some (Nodes Sample.config !! "bsc") /\ is_Some (Nodes Sample.config !! "bsc").
Proof.
  apply (results_keys_selected ["nodestat"] Sample.config true (Nodes Sample.config)
           [("eth", Sample.eth); ("bsc", Sample.bsc)] Sample.all_healthy
           (Failing.moves 1 11) "bsc"
           {| SyncStatus := "synced"; NodeBlockNum := 100; LatestBlockNum := 100;
              Diff := 0; PeersCount := 5 |}).
  - reflexivity.
  - vm_compute. reflexivity.
  - vm_compute. reflexivity.
Defined.

(** *** The entries of the mapping *)

Lemma in_int64_0 : in_int64 0.
Proof. unfold in_int64. lia. Qed.

(** Whatever the input, the number [ParseInt] hands back is an [int64]. *)
Lemma ParseInt_range (s : string) : in_int64 (fst (strconv.ParseInt s)).
Proof.
  unfold strconv.ParseInt. destruct s as [|a rest]; [apply in_int64_0|].
  destruct (if Ascii.eqb a "+" then (false, rest)
            else if Ascii.eqb a "-" then (true, rest) else (false, String a rest))
    as [neg s1].
  destruct (strconv.ParseUint s1) as [un [[]|]]; try apply in_int64_0.
  - destruct (negb neg && (2 ^ 63 <=? un)); [unfold in_int64; simpl; lia|].
    destruct (neg && (2 ^ 63 <? un)); [unfold in_int64; simpl; lia|].
    simpl. destruct neg; apply wrap_int64_range.
  - destruct (negb neg && (2 ^ 63 <=? un)); [unfold in_int64; simpl; lia|].
    destruct (neg && (2 ^ 63 <? un)); [unfold in_int64; simpl; lia|].
    simpl. destruct neg; apply wrap_int64_range.
Qed.

Lemma parse_prefixed_hex_range (v : json) (n : Z) (e : option error) :
  parse_prefixed_hex v = Return (n, e) -> in_int64 n.
Proof.
  unfold parse_prefixed_hex. destruct (assert_string v) as [s|]; [|discriminate].
  destruct (slice_from2 s) as [digits|]; [|discriminate].
  intros [= H]. pose proof (ParseInt_range digits) as Hr.
  rewrite H in Hr. exact Hr.
Qed.

Lemma fetchLatestBlock_returns_range (Q : forall X, event X -> X -> Prop)
    (nodeName apiUrl : string) (latestBlock : Z) (e : option error) :
  returns_under Q (fetchLatestBlock nodeName apiUrl) (latestBlock, e) ->
  in_int64 latestBlock.
Proof.
  unfold fetchLatestBlock. simpl. intros (reply & _ & H).
  destruct reply as [err|err|err|err|result]; simpl in H;
    try (injection H as <- _; apply in_int64_0).
  destruct (index result "result") eqn:E; simpl in H;
    try contradiction; try (injection H as <- _; apply in_int64_0).
  apply returns_lift in H. eapply parse_prefixed_hex_range, H.
Qed.

(** The verdict is one of three, and an error comes with "unknown"
    only. *)
Lemma getSyncStatus_verdicts (statusObject : json) (latestBlock : Z)
    (verdict : string) (e : option error) :
  getSyncStatus statusObject latestBlock = Return (verdict, e) ->
  (verdict = "synced" \/ verdict = "syncing" \/ verdict = "unknown")
  /\ (e <> None -> verdict = "unknown").
Proof.
  unfold getSyncStatus.
  destruct statusObject as [| b | | | | m];
    try (intros [= <- <-]; split; [auto|intros H; reflexivity || destruct H; reflexivity]).
  destruct (index m "startingBlock");
    try (intros [= <- <-]; split; [auto|intros H; reflexivity]).
  destruct (parse_prefixed_hex (JString s)) as [[n [err|]]|]; try discriminate.
  - intros [= <- <-]. split; [auto|reflexivity].
  - destruct (20 <? sub64 latestBlock n); intros [= <- <-];
      (split; [auto|intros H; destruct H; reflexivity]).
Qed.

Ltac stores_nothing :=
  first [ apply callRPC_events | apply fetchLatestBlock_events; intros ?
        | apply forall_events_lift | apply forall_events_trigger
        | unfold printf; apply forall_events_trigger ];
  intros ? ? ?; discriminate.

Lemma after_peers_stores_well_formed (config : NodeConfig) (nodeName : string)
    (node : Node) (localPort : Z) (status : json) (peersCountNum : Z) :
  in_int64 peersCountNum ->
  forall_events (stores_only (fun _ r => well_formed r))
    (after_peers config nodeName node localPort status peersCountNum).
Proof.
  intros Hpeers. unfold after_peers, mbind, prog_bind.
  apply forall_events_bind; [stores_nothing|].
  intros [currentNodeBlock [err|]]; [stores_nothing|].
  apply forall_events_bind_returns; [apply forall_events_lift|].
  intros [currentNodeBlockNum [err|]] Hblock%returns_lift; [stores_nothing|].
  apply forall_events_bind_returns; [stores_nothing|].
  intros [latestBlock [err|]] Href%fetchLatestBlock_returns_range; [stores_nothing|].
  apply forall_events_bind_returns; [apply forall_events_lift|].
  intros [syncStatus err] [Hverdict _]%returns_lift%getSyncStatus_verdicts.
  apply forall_events_bind; [destruct err; [stores_nothing|exact I]|].
  intros _. apply forall_events_trigger. intros n r [= _ <-].
  unfold well_formed. simpl.
  split; [exact Hverdict|]. split; [eapply parse_prefixed_hex_range, Hblock|].
  split; [exact Href|]. split; [exact Hpeers|]. split; [reflexivity|].
  apply wrap_int64_range.
Qed.

Lemma checker_stores_well_formed (config : NodeConfig) (nodeName : string)
    (node : Node) (localPort : Z) :
  forall_events (stores_only (fun _ r => well_formed r))
    (checker config nodeName node localPort).
Proof.
  unfold checker.
  apply forall_events_defer; [stores_nothing|].
  cbv zeta. unfold mbind, prog_bind.
  apply forall_events_bind; [stores_nothing|]. intros [err|]; [stores_nothing|].
  apply forall_events_bind; [stores_nothing|]. intros [err|]; [stores_nothing|].
  apply forall_events_bind; [stores_nothing|]. intros _.
  apply forall_events_bind; [stores_nothing|]. intros _.
  apply forall_events_defer; [stores_nothing|].
  unfold queries, mbind, prog_bind.
  apply forall_events_bind; [stores_nothing|].
  intros [status [err|]]; [stores_nothing|].
  cbv zeta. destruct (negb (nodeName =? "arb")%string);
    [|apply after_peers_stores_well_formed, in_int64_0].
  apply forall_events_bind; [stores_nothing|].
  intros [peersCount [err|]]; [stores_nothing|].
  apply forall_events_bind_returns; [apply forall_events_lift|].
  intros [peersCountNum [err|]] Hpeers%returns_lift; [stores_nothing|].
  eapply after_peers_stores_well_formed, parse_prefixed_hex_range, Hpeers.
Qed.

(** X8.  Every entry of the mapping is well formed.  In every run, an entry of
    [results] has one of the three verdicts, its heights and its peer
    count are [int64] values, and its difference is the [int64] difference
    of the reference height and the height of the node. *)
Theorem results_well_formed (config : NodeConfig) (all : bool)
    (nodes : list (string * Node)) (env : environment) (schedule : list nat)
    (nodeName : string) (r : Result) :
  results (run env schedule (launch config all nodes)) !! nodeName = Some r ->
  well_formed r.
Proof.
  intros Hr.
  assert (H : results_satisfy (fun _ r => well_formed r)
                (run env schedule (launch config all nodes))).
  { apply run_invariant; [apply step_results_satisfy|].
    apply launch_results_satisfy. intros n node lp _.
    apply checker_stores_well_formed. }
  destruct H as [H _]. exact (H nodeName r Hr).
Qed.

Lemma results_well_formed_witness :
  well_formed {| SyncStatus := "synced"; NodeBlockNum := 100; LatestBlockNum := 100;
                 Diff := 0; PeersCount := 5 |}.
Proof.
  apply (results_well_formed Sample.config true
           [("eth", Sample.eth); ("bsc", Sample.bsc)] Sample.all_healthy
           (Failing.moves 1 11) "bsc").
  vm_compute. reflexivity.
Defined.

(** X9.  The difference is exact on heights that are not negative.  In every
    run, for an entry of [results] whose two heights are not negative, the
    difference is the reference height minus the height of the node,
    without wrap-around. *)
Theorem results_diff_exact (config : NodeConfig) (all : bool)
    (nodes : list (string * Node)) (env : environment) (schedule : list nat)
    (nodeName : string) (r : Result) :
  results (run env schedule (launch config all nodes)) !! nodeName = Some r ->
  0 <= NodeBlockNum r ->
  0 <= LatestBlockNum r ->
  Diff r = LatestBlockNum r - NodeBlockNum r.
Proof.
  intros Hr Hnode Href.
  assert (H : results_satisfy (fun _ r => well_formed r)
                (run env schedule (launch config all nodes))).
  { apply run_invariant; [apply step_results_satisfy|].
    apply launch_results_satisfy. intros n node lp _.
    apply checker_stores_well_formed. }
  destruct H as [H _].
  destruct (H nodeName r Hr) as (_ & Hn & Hl & _ & -> & _).
  apply sub64_exact. unfold in_int64 in *. lia.
Qed.

Lemma results_diff_exact_witness :
  Diff {| SyncStatus := "synced"; NodeBlockNum := 100; LatestBlockNum := 100;
          Diff := 0; PeersCount := 5 |}
    = LatestBlockNum {| SyncStatus := "synced"; NodeBlockNum := 100;
                        LatestBlockNum := 100; Diff := 0; PeersCount := 5 |}
      - NodeBlockNum {| SyncStatus := "synced"; NodeBlockNum := 100;
                        LatestBlockNum := 100; Diff := 0; PeersCount := 5 |}.
Proof.
  apply (results_diff_exact Sample.config true
           [("eth", Sample.eth); ("bsc", Sample.bsc)] Sample.all_healthy
           (Failing.moves 1 11) "bsc").
  - vm_compute. reflexivity.
  - simpl. lia.
  - simpl. lia.
Defined.

(** ** Runs that cannot panic *)




Lemma parse_prefixed_hex_no_panic (v : json) :
  hex_shaped v -> exists r, parse_prefixed_hex v = Return r.
Proof.
  intros (s & -> & Hs). unfold parse_prefixed_hex, slice_from2. simpl.
  destruct (Z.ltb_spec (Z.of_nat (String.length s)) 2); [lia|]. eauto.
Qed.














(** ** The outcomes of the classifier *)

(** X15.  The classifier panics on one shape only, an object whose
    [startingBlock] is a string of less than two bytes; otherwise it
    returns one of the three verdicts, and an error only with the verdict
    "unknown" and only for an object whose [startingBlock] is a string. *)
Theorem getSyncStatus_outcomes (statusObject : json) (latestBlock : Z) :
  ((exists p, getSyncStatus statusObject latestBlock = Panicked p)
   <-> exists m s, statusObject = JObject m
                   /\ index m "startingBlock" = JString s
                   /\ (String.length s < 2)%nat)
  /\ forall verdict e,
       getSyncStatus statusObject latestBlock = Return (verdict, e) ->
       (verdict = "synced" \/ verdict = "syncing" \/ verdict = "unknown")
       /\ (e <> None ->
           verdict = "unknown"
           /\ exists m s, statusObject = JObject m /\ index m "startingBlock" = JString s).
Proof.
  split.
  - split.
    + intros [p Hp].
      destruct statusObject as [| b | | | | m]; try discriminate.
      unfold getSyncStatus in Hp.
      destruct (index m "startingBlock") as [| | |s| |] eqn:E; try discriminate.
      exists m, s. split; [reflexivity|]. split; [exact E|].
      destruct (Nat.lt_ge_cases (String.length s) 2) as [Hlt|Hge]; [exact Hlt|].
      destruct (parse_prefixed_hex_no_panic (JString s)) as [[n [err|]] Hr];
        [exists s; auto| |]; rewrite Hr in Hp; try discriminate.
      destruct (20 <? sub64 latestBlock n); discriminate.
    + intros (m & s & -> & E & Hs). unfold getSyncStatus. rewrite E.
      unfold parse_prefixed_hex, slice_from2. simpl.
      destruct (Z.ltb_spec (Z.of_nat (String.length s)) 2); [eauto|lia].
  - intros verdict e H.
    destruct (getSyncStatus_verdicts _ _ _ _ H) as [Hv He].
    split; [exact Hv|]. intros Hne. split; [apply He, Hne|].
    destruct statusObject as [| b | | | | m]; simpl in H;
      try (injection H as _ <-; destruct Hne; reflexivity).
    unfold getSyncStatus in H.
    destruct (index m "startingBlock") as [| | |s| |] eqn:E;
      try (injection H as _ <-; destruct Hne; reflexivity).
    eauto.
Qed.

(** ** Decoding of hexadecimal numerals *)

(** The digit [ParseUint] reads in base 16 is the hexadecimal digit. *)
Lemma digit_hex_digit (a : ascii) :
  match strconv.digit (Z.of_N (N_of_ascii a)) with
  | Some d => if 16 <=? d then None else Some d
  | None => None
  end = hex_digit a.
Proof.
  destruct a as [b0 b1 b2 b3 b4 b5 b6 b7].
  destruct b0, b1, b2, b3, b4, b5, b6, b7; vm_compute; reflexivity.
Qed.

Lemma hex_digit_range (a : ascii) (d : Z) : hex_digit a = Some d -> 0 <= d < 16.
Proof.
  assert (H : match hex_digit a with
              | Some d => (0 <=? d) && (d <? 16)
              | None => true
              end = true).
  { destruct a as [b0 b1 b2 b3 b4 b5 b6 b7].
    destruct b0, b1, b2, b3, b4, b5, b6, b7; vm_compute; reflexivity. }
  intros Hd. rewrite Hd in H. apply andb_true_iff in H as [H1 H2]. lia.
Qed.

Lemma hex_fold_ge (s : string) (acc v : Z) :
  0 <= acc -> hex_fold s acc = Some v -> acc <= v.
Proof.
  revert acc. induction s as [|a s IH]; intros acc Hacc; simpl.
  - intros [= <-]. lia.
  - destruct (hex_digit a) as [d|] eqn:Hd; [|discriminate].
    apply hex_digit_range in Hd. intros H. apply IH in H; lia.
Qed.

(** The loop of [ParseUint] on hexadecimal digits: their value when it
    fits in 64 bits, the range error otherwise. *)
Lemma parse_loop_hex (s : string) (n v : Z) :
  0 <= n < 2 ^ 64 ->
  hex_fold s n = Some v ->
  strconv.parse_loop s n
    = if v <? 2 ^ 64 then (v, None) else (strconv.maxUint64, Some ErrRange).
Proof.
  revert n. induction s as [|a s IH]; intros n Hn; simpl.
  - intros [= <-]. destruct (Z.ltb_spec n (2 ^ 64)); [reflexivity|lia].
  - pose proof (digit_hex_digit a) as Hd.
    destruct (hex_digit a) as [d|] eqn:Hh; [|discriminate].
    apply hex_digit_range in Hh.
    destruct (strconv.digit (Z.of_N (N_of_ascii a))) as [d'|]; [|discriminate].
    destruct (16 <=? d'); [discriminate|]. injection Hd as ->.
    intros Hv. pose proof (hex_fold_ge _ (n * 16 + d) _ ltac:(lia) Hv) as Hge.
    unfold strconv.maxUint64, wrap_uint64.
    change ((2 ^ 64 - 1) / 16 + 1) with (2 ^ 60).
    destruct (Z.leb_spec (2 ^ 60) n) as [Hbig|Hsmall].
    + destruct (Z.ltb_spec v (2 ^ 64)); [lia|reflexivity].
    + rewrite (Z.mod_small (n * 16)) by lia.
      rewrite (Z.mod_small (n * 16 + d)) by lia.
      destruct (Z.ltb_spec (n * 16 + d) (n * 16)); [lia|].
      destruct (Z.ltb_spec (2 ^ 64 - 1) (n * 16 + d)); [lia|]. simpl.
      apply IH; [lia|exact Hv].
Qed.

(** The loop of [ParseUint] succeeds on hexadecimal digits only. *)
Lemma parse_loop_success (s : string) (n v : Z) :
  0 <= n < 2 ^ 64 ->
  strconv.parse_loop s n = (v, None) ->
  hex_fold s n = Some v /\ 0 <= v < 2 ^ 64.
Proof.
  revert n. induction s as [|a s IH]; intros n Hn; simpl.
  - intros [= <-]. auto.
  - pose proof (digit_hex_digit a) as Hd.
    destruct (strconv.digit (Z.of_N (N_of_ascii a))) as [d|]; [|discriminate].
    destruct (16 <=? d); [discriminate|]. rewrite <- Hd.
    symmetry in Hd. apply hex_digit_range in Hd.
    unfold strconv.maxUint64, wrap_uint64.
    change ((2 ^ 64 - 1) / 16 + 1) with (2 ^ 60).
    destruct (Z.leb_spec (2 ^ 60) n) as [Hbig|Hsmall]; [discriminate|].
    rewrite (Z.mod_small (n * 16)) by lia.
    rewrite (Z.mod_small (n * 16 + d)) by lia.
    destruct (_ || _); [discriminate|].
    apply IH. lia.
Qed.

Lemma hex_digit_not_sign (a : ascii) (d : Z) :
  hex_digit a = Some d -> Ascii.eqb a "+" = false /\ Ascii.eqb a "-" = false.
Proof.
  destruct (Ascii.eqb_spec a "+") as [->|]; [discriminate|].
  destruct (Ascii.eqb_spec a "-") as [->|]; [discriminate|]. auto.
Qed.

Lemma wrap_int64_small (n : Z) : 0 <= n < 2 ^ 63 -> wrap_int64 n = n.
Proof. intros H. apply wrap_int64_exact. unfold in_int64. lia. Qed.

(** X16.  The decoding of a prefixed hexadecimal numeral.  After any two bytes,
    a non-empty string of hexadecimal digits decodes to the number it
    denotes when that is below 2^63, and to the range error of [ParseInt]
    with the value 2^63-1 otherwise. *)
Theorem parse_prefixed_hex_decodes (a b : ascii) (digits : string) (v : Z) :
  hex_value digits = Some v ->
  parse_prefixed_hex (JString (String a (String b digits)))
    = Return (if v <? 2 ^ 63 then (v, None)
              else (2 ^ 63 - 1, Some (NumError "ParseInt" digits ErrRange))).
Proof.
  intros Hv. unfold parse_prefixed_hex, slice_from2. simpl assert_string. cbv iota.
  assert (Hlen : (Z.of_nat (String.length (String a (String b digits))) <? 2) = false).
  { apply Z.ltb_ge. simpl String.length. lia. }
  rewrite Hlen. simpl string_drop. f_equal.
  destruct digits as [|c rest]; [discriminate|]. unfold hex_value in Hv.
  assert (Hc : exists d, hex_digit c = Some d).
  { simpl in Hv. destruct (hex_digit c); [eauto|discriminate]. }
  destruct Hc as [d Hd]. destruct (hex_digit_not_sign _ _ Hd) as [Hp Hm].
  unfold strconv.ParseInt. rewrite Hp, Hm. unfold strconv.ParseUint.
  rewrite (parse_loop_hex _ 0 v ltac:(lia) Hv).
  pose proof (hex_fold_ge _ 0 _ ltac:(lia) Hv) as Hge.
  destruct (Z.ltb_spec v (2 ^ 64)) as [H64|H64].
  - cbv zeta. simpl negb. cbn [andb].
    destruct (Z.leb_spec (2 ^ 63) v); destruct (Z.ltb_spec v (2 ^ 63)); try lia;
      [reflexivity|].
    rewrite wrap_int64_small by lia. reflexivity.
  - cbv zeta. unfold strconv.maxUint64. simpl negb. cbn [andb].
    destruct (Z.ltb_spec v (2 ^ 63)); [lia|].
    destruct (Z.leb_spec (2 ^ 63) (2 ^ 64 - 1)); [reflexivity|lia].
Qed.

Lemma parse_prefixed_hex_decodes_witness :
  parse_prefixed_hex (JString "0x1F")
    = Return (if 31 <? 2 ^ 63 then (31, None)
              else (2 ^ 63 - 1, Some (NumError "ParseInt" "1F" ErrRange))).
Proof. apply (parse_prefixed_hex_decodes "0" "x" "1F" 31). reflexivity. Defined.

Lemma parse_loop_range_value (s : string) (n v : Z) :
  strconv.parse_loop s n = (v, Some ErrRange) -> v = strconv.maxUint64.
Proof.
  revert n. induction s as [|a s IH]; intros n; simpl; [discriminate|].
  destruct (strconv.digit (Z.of_N (N_of_ascii a))) as [d|]; [|discriminate].
  destruct (16 <=? d); [discriminate|].
  destruct (_ <=? n); [intros [= <-]; reflexivity|].
  destruct (_ || _); [intros [= <-]; reflexivity|]. apply IH.
Qed.

Lemma ParseUint_success (s : string) (un : Z) :
  strconv.ParseUint s = (un, None) -> hex_value s = Some un /\ 0 <= un < 2 ^ 64.
Proof.
  unfold strconv.ParseUint, hex_value. destruct s as [|a s]; [discriminate|].
  apply parse_loop_success. lia.
Qed.

(** What [ParseInt] accepts in base 16: an optional sign and a non-empty
    string of hexadecimal digits, whose value, signed, is the result. *)
Lemma ParseInt_success (s : string) (n : Z) :
  strconv.ParseInt s = (n, None) ->
  exists digits value,
    hex_value digits = Some value
    /\ (((s = digits \/ s = String "+" digits) /\ n = value /\ value < 2 ^ 63)
        \/ (s = String "-" digits /\ n = - value /\ value <= 2 ^ 63)).
Proof.
  unfold strconv.ParseInt. destruct s as [|c rest]; [discriminate|].
  assert (Hcore : forall (neg : bool) (s1 : string),
    (let '(un, e) := strconv.ParseUint s1 in
     match e with
     | Some ErrSyntax => (0, Some (NumError "ParseInt" (String c rest) ErrSyntax))
     | _ =>
         if negb neg && (2 ^ 63 <=? un)
         then (2 ^ 63 - 1, Some (NumError "ParseInt" (String c rest) ErrRange))
         else if neg && (2 ^ 63 <? un)
         then (- 2 ^ 63, Some (NumError "ParseInt" (String c rest) ErrRange))
         else (if neg then wrap_int64 (- wrap_int64 un) else wrap_int64 un, None)
     end) = (n, None) ->
    exists value, hex_value s1 = Some value
      /\ if neg then n = - value /\ value <= 2 ^ 63 else n = value /\ value < 2 ^ 63).
  { intros neg s1. destruct (strconv.ParseUint s1) as [un e] eqn:Hu.
    destruct e as [[]|]; [discriminate| |].
    - unfold strconv.ParseUint in Hu. destruct s1 as [|a1 s1]; [discriminate|].
      apply parse_loop_range_value in Hu as ->. unfold strconv.maxUint64.
      destruct neg; cbn [negb andb].
      + destruct (Z.ltb_spec (2 ^ 63) (2 ^ 64 - 1)); [discriminate|lia].
      + destruct (Z.leb_spec (2 ^ 63) (2 ^ 64 - 1)); [discriminate|lia].
    - apply ParseUint_success in Hu as [Hv Hr].
      destruct neg; cbn [negb andb].
      + destruct (Z.ltb_spec (2 ^ 63) un); [discriminate|]. intros [= <-].
        exists un. split; [exact Hv|]. split; [|lia].
        destruct (Z.eq_dec un (2 ^ 63)) as [->|]; [reflexivity|].
        rewrite (wrap_int64_small un) by lia.
        apply wrap_int64_exact. unfold in_int64. lia.
      + destruct (Z.leb_spec (2 ^ 63) un); [discriminate|]. intros [= <-].
        exists un. split; [exact Hv|]. split; [|lia]. apply wrap_int64_small. lia. }
  destruct (Ascii.eqb_spec c "+") as [->|Hp].
  - intros H. destruct (Hcore false rest) as (value & Hv & -> & Hlt).
    { destruct (strconv.ParseUint rest) as [un [[]|]]; exact H. }
    exists rest, value. split; [exact Hv|]. left. auto.
  - destruct (Ascii.eqb_spec c "-") as [->|Hm].
    + intros H. destruct (Hcore true rest) as (value & Hv & -> & Hle).
      { destruct (strconv.ParseUint rest) as [un [[]|]]; exact H. }
      exists rest, value. split; [exact Hv|]. right. auto.
    + intros H. destruct (Hcore false (String c rest)) as (value & Hv & -> & Hlt).
      { destruct (strconv.ParseUint (String c rest)) as [un [[]|]]; exact H. }
      exists (String c rest), value. split; [exact Hv|]. left. auto.
Qed.

(** X17.  What the decoding accepts.  When the decoding of a value succeeds,
    the value is a string of two bytes, whatever they are, followed by an
    optional sign and a non-empty string of hexadecimal digits, and the
    result is the number they denote, signed: no other string decodes
    without an error or a panic. *)
Theorem parse_prefixed_hex_accepts (v : json) (n : Z) :
  parse_prefixed_hex v = Return (n, None) ->
  exists a b body digits value,
    v = JString (String a (String b body))
    /\ hex_value digits = Some value
    /\ (((body = digits \/ body = String "+" digits) /\ n = value /\ value < 2 ^ 63)
        \/ (body = String "-" digits /\ n = - value /\ value <= 2 ^ 63)).
Proof.
  unfold parse_prefixed_hex. destruct v; simpl; try discriminate.
  unfold slice_from2.
  destruct s as [|a [|b body]]; simpl; try discriminate.
  destruct (_ <? 2); [discriminate|].
  intros [= H]. apply ParseInt_success in H as (digits & value & Hv & H).
  exists a, b, body, digits, value. auto.
Qed.

Lemma parse_prefixed_hex_accepts_witness :
  exists a b body digits value,
    JString "0x-1f" = JString (String a (String b body))
    /\ hex_value digits = Some value
    /\ (((body = digits \/ body = String "+" digits) /\ -31 = value /\ value < 2 ^ 63)
        \/ (body = String "-" digits /\ -31 = - value /\ value <= 2 ^ 63)).
Proof. apply (parse_prefixed_hex_accepts (JString "0x-1f") (-31)). reflexivity. Defined.

(** ** A check whose queries all succeed *)




Section CheckSucceeds.

Variables (env : environment) (config : NodeConfig) (nodeName : string) (node : Node).
Variable localPort : Z.
Variables (syncing peers block reference : gmap string json).
Variables (peersCount currentNodeBlockNum latestBlock : Z) (syncStatus : string).

Hypothesis pipe_ok : forall t,
  pipe_error env t
    (kubectl_port_forward (Service node) localPort (Port node) "blockchains") = None.
Hypothesis start_ok : forall t,
  start_error env t
    (kubectl_port_forward (Service node) localPort (Port node) "blockchains") = None.
Hypothesis syncing_ok : forall t,
  rpc_server env t (Service node) (Port node) (RPCPath node) "eth_syncing"
    = Unmarshaled syncing.
Hypothesis peers_ok : forall t,
  rpc_server env t (Service node) (Port node) (RPCPath node) "net_peerCount"
    = Unmarshaled peers.
Hypothesis block_ok : forall t,
  rpc_server env t (Service node) (Port node) (RPCPath node) "eth_blockNumber"
    = Unmarshaled block.
Hypothesis reference_ok : forall t,
  public_api env t
    (default "" (PublicApis config !! nodeName) +:+ "?module=proxy&action=eth_blockNumber")
    = Unmarshaled reference.
Hypothesis peers_decode :
  parse_prefixed_hex (index peers "result") = Return (peersCount, None).
Hypothesis block_decode :
  parse_prefixed_hex (index block "result") = Return (currentNodeBlockNum, None).
Hypothesis reference_decode :
  parse_prefixed_hex (index reference "result") = Return (latestBlock, None).
Hypothesis classified :
  getSyncStatus (index syncing "result") latestBlock = Return (syncStatus, None).



End CheckSucceeds.


(** ** The printing of the mapping *)

Lemma print_results_elem (entries : list (string * Result))
    (line : string * list operand) :
  line ∈ print_results entries
  <-> exists nodeName res, (nodeName, res) ∈ entries /\ line ∈ print_entry nodeName res.
Proof.
  induction entries as [|[n r] entries IH]; cbn [print_results].
  - split; [intros H; inversion H|intros (? & ? & H & _); inversion H].
  - rewrite elem_of_app, IH. split.
    + intros [H|(n' & r' & Hin & H)].
      * exists n, r. split; [left|exact H].
      * exists n', r'. split; [right; exact Hin|exact H].
    + intros (n' & r' & [[= -> ->]|Hin]%elem_of_cons & H); [left; exact H|].
      right. eauto.
Qed.

Lemma print_results_length (entries : list (string * Result)) :
  List.length (print_results entries)
    = (6 * List.length entries
       + List.length (List.filter (fun e => negb (String.eqb (fst e) "arb")) entries))%nat.
Proof.
  induction entries as [|[n r] entries IH]; [reflexivity|].
  cbn [print_results]. rewrite length_app, IH. unfold print_entry. simpl.
  destruct (negb (n =? "arb")%string); simpl; lia.
Qed.

(** X18.  What is printed of the mapping.  In whatever order the map is walked,
    every entry gets its line with the name of the node, a line with a
    peer count is printed for the entries under a name other than "arb"
    and for no other, and the number of lines is six for each entry and
    one more for each entry that is not "arb". *)
Theorem printed_report (m : gmap string Result) (entries : list (string * Result)) :
  entries ≡ₚ map_to_list m ->
  (forall nodeName,
      ("Node: %s\n", [OString nodeName]) ∈ print_results entries
      <-> is_Some (m !! nodeName))
  /\ (forall n,
      ("Peers count: %d\n", [OInt n]) ∈ print_results entries
      <-> exists nodeName res,
            m !! nodeName = Some res /\ nodeName <> "arb" /\ PeersCount res = n)
  /\ List.length (print_results entries)
     = (6 * size m
        + List.length (List.filter (fun e => negb (String.eqb (fst e) "arb")) entries))%nat.
Proof.
  intros Hperm.
  assert (Hin : forall n r, (n, r) ∈ entries <-> m !! n = Some r).
  { intros n r. rewrite Hperm. apply elem_of_map_to_list. }
  split; [|split].
  - intros nodeName. rewrite print_results_elem. split.
    + intros (n & r & Hn & Hline). unfold print_entry in Hline.
      exists r. apply Hin.
      destruct (negb (n =? "arb")%string); simpl in Hline;
        repeat (apply elem_of_cons in Hline as [Hline|Hline];
                [try discriminate; injection Hline as ->; exact Hn|]);
        inversion Hline.
    + intros [r Hr]. exists nodeName, r. split; [apply Hin, Hr|].
      unfold print_entry. left.
  - intros n. rewrite print_results_elem. split.
    + intros (nodeName & r & Hn & Hline). unfold print_entry in Hline.
      exists nodeName, r. split; [apply Hin, Hn|].
      destruct (String.eqb_spec nodeName "arb") as [E|E]; simpl in Hline;
        repeat (apply elem_of_cons in Hline as [Hline|Hline];
                [try discriminate; injection Hline as ->; auto|]);
        inversion Hline.
    + intros (nodeName & r & Hr & Hne & <-). exists nodeName, r.
      split; [apply Hin, Hr|]. unfold print_entry.
      destruct (String.eqb_spec nodeName "arb") as [E|E]; [contradiction|].
      simpl. do 5 right. left.
  - rewrite print_results_length. f_equal. f_equal.
    rewrite <- length_map_to_list. apply Permutation_length, Hperm.
Qed.

Lemma printed_report_witness :
  let m : gmap string Result :=
    {[ "arb" := {| SyncStatus := "synced"; NodeBlockNum := 7; LatestBlockNum := 7;
                   Diff := 0; PeersCount := 0 |};
       "eth" := {| SyncStatus := "synced"; NodeBlockNum := 100; LatestBlockNum := 100;
                   Diff := 0; PeersCount := 5 |} ]} in
  (forall nodeName,
      ("Node: %s\n", [OString nodeName]) ∈ print_results (map_to_list m)
      <-> is_Some (m !! nodeName))
  /\ (forall n,
      ("Peers count: %d\n", [OInt n]) ∈ print_results (map_to_list m)
      <-> exists nodeName res,
            m !! nodeName = Some res /\ nodeName <> "arb" /\ PeersCount res = n)
  /\ List.length (print_results (map_to_list m))
     = (6 * size m
        + List.length (List.filter (fun e => negb (String.eqb (fst e) "arb"))
                         (map_to_list m)))%nat.
Proof. cbv zeta. apply printed_report. reflexivity. Defined.

(** ** A check whose first query fails *)



(** ** Witnesses of earlier properties *)

Lemma failed_check_stores_nothing_witness :
  results (run Failing.eth_down (Failing.moves 0 8) Failing.two) !! "eth" = None
  \/ no_failure_printed "eth" (stdout (run Failing.eth_down (Failing.moves 0 8) Failing.two)).
Proof.
  apply (failed_check_stores_nothing Sample.config true
           [("eth", Sample.eth); ("bsc", Sample.bsc)] Failing.eth_down
           (Failing.moves 0 8) "eth").
  simpl. apply NoDup_cons. split; [|apply NoDup_singleton].
  intros H%list_elem_of_singleton. discriminate.
Defined.

Lemma after_peers_classification_error_witness :
  let s' := snd (exec Steady.world
                   (after_peers Sample.config "eth" Sample.eth 8080
                      (JObject {[ "startingBlock" := JString "0xzz" ]}) 5)
                   Failing.tunnel_up) in
  fst (exec Steady.world
         (after_peers Sample.config "eth" Sample.eth 8080
            (JObject {[ "startingBlock" := JString "0xzz" ]}) 5)
         Failing.tunnel_up)
    = Return tt
  /\ results s'
     = <["eth" := {| SyncStatus := "unknown";
                     NodeBlockNum := 100;
                     LatestBlockNum := 100;
                     Diff := sub64 100 100;
                     PeersCount := 5 |}]> (results Failing.tunnel_up)
  /\ stdout s'
     = (stdout Failing.tunnel_up
          ++ [("failed to determine node %s sync status: %s\n",
               [AString "eth"; AError (NumError "ParseInt" "zz" ErrSyntax)])])%list.
Proof.
  apply (after_peers_classification_error Steady.world Failing.tunnel_up Sample.config
           "eth" Sample.eth 8080 (JObject {[ "startingBlock" := JString "0xzz" ]}) 5
           "eth-node" 8545 {[ "result" := JString "0x64" ]}
           {[ "result" := JString "0x64" ]} 100 100 "unknown"
           (NumError "ParseInt" "zz" ErrSyntax));
    reflexivity.
Defined.

(** ** Every check ends *)

Lemma within_mono {A : Type} (n n' : nat) (p : prog A) :
  (n <= n')%nat -> within n p -> within n' p.
Proof.
  revert n n'. induction p as [a|e|X e k IH]; intros n n' Hn; simpl; auto.
  destruct n as [|n]; [intros []|]. destruct n' as [|n']; [lia|].
  intros H x. apply (IH x n n'); [lia|apply H].
Qed.

Lemma within_bind {A B : Type} (a b : nat) (p : prog A) (f : A -> prog B) :
  within a p -> (forall x, within b (f x)) -> within (a + b) (bind p f).
Proof.
  revert a. induction p as [r|e|X e k IH]; intros a; simpl.
  - intros _ Hf. apply (within_mono b); [lia|apply Hf].
  - auto.
  - destruct a as [|a]; [intros []|]. intros Hp Hf x. apply IH; [apply Hp|exact Hf].
Qed.

Lemma within_defer {A : Type} (a b : nat) (cleanup : prog unit) (p : prog A) :
  within a cleanup -> within b p -> within (b + a) (defer cleanup p).
Proof.
  intros Hc. revert b. induction p as [r|e|X e k IH]; intros b; simpl.
  - intros _. apply (within_mono (a + 0)); [lia|].
    apply within_bind; [exact Hc|]. intros; exact I.
  - intros _. apply (within_mono (a + 0)); [lia|].
    apply within_bind; [exact Hc|]. intros; exact I.
  - destruct b as [|b]; [intros []|]. intros Hp x. apply IH, Hp.
Qed.

Lemma within_trigger {X : Type} (e : event X) : within 1 (trigger e).
Proof. intros x. exact I. Qed.

Lemma within_printf (n : nat) (format : string) (args : list arg) :
  within (S n) (printf format args).
Proof. apply (within_mono 1); [lia|apply within_trigger]. Qed.

Lemma within_lift {A : Type} (g : go A) : within 0 (lift g).
Proof. destruct g; exact I. Qed.

Lemma within_callRPC (node : Node) (localPort : Z) (method : string) :
  within 1 (callRPC node localPort method).
Proof. intros reply. destruct reply; exact I. Qed.

Lemma within_fetchLatestBlock (nodeName apiUrl : string) :
  within 1 (fetchLatestBlock nodeName apiUrl).
Proof.
  intros reply. destruct reply; try exact I. simpl.
  destruct (index result "result"); try exact I. apply within_lift.
Qed.

Lemma within_after_peers (config : NodeConfig) (nodeName : string) (node : Node)
    (localPort : Z) (status : json) (peersCountNum : Z) :
  within 4 (after_peers config nodeName node localPort status peersCountNum).
Proof.
  unfold after_peers, mbind, prog_bind.
  apply (within_bind 1 3); [apply within_callRPC|].
  intros [currentNodeBlock [err|]]; [apply within_printf|].
  apply (within_bind 0 3); [apply within_lift|].
  intros [currentNodeBlockNum [err|]]; [apply within_printf|].
  apply (within_bind 1 2); [apply within_fetchLatestBlock|].
  intros [latestBlock [err|]]; [apply within_printf|].
  apply (within_bind 0 2); [apply within_lift|].
  intros [syncStatus err].
  apply (within_bind 1 1); [destruct err; [apply within_printf|exact I]|].
  intros _. apply within_trigger.
Qed.

Lemma within_queries (config : NodeConfig) (nodeName : string) (node : Node)
    (localPort : Z) :
  within 6 (queries config nodeName node localPort).
Proof.
  unfold queries, mbind, prog_bind.
  apply (within_bind 1 5); [apply within_callRPC|].
  intros [status [err|]]; [apply within_printf|].
  cbv zeta. destruct (negb (nodeName =? "arb")%string).
  - apply (within_bind 1 4); [apply within_callRPC|].
    intros [peersCount [err|]]; [apply within_printf|].
    apply (within_bind 0 4); [apply within_lift|].
    intros [peersCountNum [err|]]; [apply within_printf|].
    apply within_after_peers.
  - apply (within_mono 4); [lia|apply within_after_peers].
Qed.

(** A check sends at most twelve events. *)
Lemma within_checker (config : NodeConfig) (nodeName : string) (node : Node)
    (localPort : Z) :
  within 12 (checker config nodeName node localPort).
Proof.
  unfold checker. apply (within_defer 1 11); [apply within_trigger|].
  cbv zeta. unfold mbind, prog_bind.
  apply (within_bind 1 10); [apply within_trigger|].
  intros [err|]; [apply within_printf|].
  apply (within_bind 1 9); [apply within_trigger|].
  intros [err|]; [apply within_printf|].
  apply (within_bind 1 8); [apply within_trigger|]. intros _.
  apply (within_bind 1 7); [apply within_trigger|]. intros _.
  apply (within_defer 1 6); [apply within_trigger|apply within_queries].
Qed.

Lemma step_crashed_sticky (env : environment) (i : nat) (s : state) :
  crashed (step env i s) = None -> crashed s = None.
Proof.
  unfold step. destruct (crashed s) eqn:E; [rewrite E; auto|]. reflexivity.
Qed.

Lemma run_crashed_sticky (env : environment) (schedule : list nat) (s : state) :
  crashed (run env schedule s) = None -> crashed s = None.
Proof.
  unfold run. revert s. induction schedule as [|i schedule IH]; intros s; simpl; auto.
  intros H. apply IH in H. eapply step_crashed_sticky, H.
Qed.

(** In a run that does not crash, every turn of a goroutine that is not
    finished uses up one of the events it has left. *)
Lemma run_within (env : environment) (schedule : list nat) (s : state)
    (budget : nat -> nat) :
  (forall j p, goroutines s !! j = Some p -> within (budget j) p) ->
  crashed (run env schedule s) = None ->
  forall j p, goroutines (run env schedule s) !! j = Some p ->
              within (budget j - turns j schedule) p.
Proof.
  revert s budget. induction schedule as [|i schedule IH]; intros s budget Hb Hc j p Hp.
  - simpl. rewrite Nat.sub_0_r. apply Hb, Hp.
  - change (run env (i :: schedule) s) with (run env schedule (step env i s)) in *.
    pose proof (run_crashed_sticky _ _ _ Hc) as Hc1.
    pose proof (step_crashed_sticky _ _ _ Hc1) as Hc0.
    specialize (IH (step env i s) (fun j => budget j - (if Nat.eqb i j then 1 else 0))%nat).
    simpl turns.
    replace (budget j - ((if Nat.eqb i j then 1 else 0) + turns j schedule))%nat
      with (budget j - (if Nat.eqb i j then 1 else 0) - turns j schedule)%nat by lia.
    apply IH; [|exact Hc|exact Hp].
    clear IH Hp p j Hc. intros j p Hp.
    unfold step in Hp, Hc1. rewrite Hc0 in Hp, Hc1.
    destruct (goroutines s !! i) as [[a|e|X e k]|] eqn:Hi.
    + apply (within_mono (budget j - (if Nat.eqb i j then 1 else 0))); [lia|].
      specialize (Hb j p Hp). destruct (Nat.eqb_spec i j) as [->|];
        [|rewrite Nat.sub_0_r; exact Hb].
      rewrite Hi in Hp. injection Hp as <-. exact I.
    + discriminate.
    + pose proof (handle_goroutines env e s) as Hg.
      destruct (handle env e s) as [x s']. simpl in Hp, Hg. rewrite Hg in Hp.
      destruct (Nat.eqb_spec i j) as [->|Hij].
      * rewrite list_lookup_insert_eq in Hp by (eapply lookup_lt_Some; eassumption).
        injection Hp as <-. specialize (Hb j _ Hi). simpl in Hb.
        destruct (budget j) as [|b]; [contradiction|].
        simpl. rewrite Nat.sub_0_r. apply Hb.
      * rewrite list_lookup_insert_ne in Hp by exact Hij.
        rewrite Nat.sub_0_r. apply Hb, Hp.
    + destruct (Nat.eqb_spec i j) as [->|Hij]; [congruence|].
      rewrite Nat.sub_0_r. apply Hb, Hp.
Qed.

Lemma within_0_finished {A : Type} (p : prog A) : within 0 p -> finished p.
Proof. destruct p; simpl; auto. Qed.

(** X7.  The run ends.  After any schedule that gives each goroutine at least
    twelve turns, the program has crashed on a panic or every goroutine is
    finished and [wg.Wait()] returns: the mapping is reported. *)
Theorem run_ends (env : environment) (config : NodeConfig) (all : bool)
    (nodes : list (string * Node)) (schedule : list nat) :
  (forall i, (i < List.length nodes)%nat -> (12 <= turns i schedule)%nat) ->
  crashed (run env schedule (launch config all nodes)) <> None
  \/ report (run env schedule (launch config all nodes))
     = Some (results (run env schedule (launch config all nodes))).
Proof.
  intros Hturns.
  destruct (crashed (run env schedule (launch config all nodes))) eqn:Hc;
    [left; discriminate|right].
  assert (Hfin : forall j p,
             goroutines (run env schedule (launch config all nodes)) !! j = Some p ->
             finished p).
  { intros j p Hp. apply within_0_finished.
    assert (Hlen : List.length (goroutines (run env schedule (launch config all nodes)))
                   = List.length nodes).
    { apply (run_invariant (fun s => List.length (goroutines s) = List.length nodes)).
      - intros i s Hl. unfold step. destruct (crashed s); [exact Hl|].
        destruct (goroutines s !! i) as [[a|e|X e k]|] eqn:Hi; try exact Hl.
        pose proof (handle_goroutines env e s) as Hg.
        destruct (handle env e s) as [x s']. simpl in *.
        rewrite length_insert, Hg. exact Hl.
      - simpl. rewrite length_fmap. apply assign_ports_length. }
    pose proof (lookup_lt_Some _ _ _ Hp) as Hj. rewrite Hlen in Hj.
    pose proof (run_within env schedule (launch config all nodes) (fun _ => 12%nat)) as H.
    replace 0%nat with (12 - turns j schedule)%nat by (specialize (Hturns j Hj); lia).
    apply H; [|exact Hc|exact Hp].
    intros j' p' Hp'. simpl in Hp'. apply list_lookup_fmap_Some in Hp'
      as ([[n node] lp] & -> & _). apply within_checker. }
  assert (Hb : barrier (run env schedule (launch config all nodes))).
  { apply run_invariant; [apply step_barrier|apply launch_barrier]. }
  destruct Hb as (flags & Hall & Hwg).
  assert (H0 : pending flags = 0).
  { clear Hwg. revert Hall Hfin.
    generalize (goroutines (run env schedule (launch config all nodes))).
    intros gs Hall Hfin. induction Hall as [|b p flags gs Hbp Hall IH]; [reflexivity|].
    simpl. rewrite IH by (intros j q Hq; apply (Hfin (S j) q Hq)).
    specialize (Hfin 0%nat p eq_refl).
    destruct b; [|reflexivity]. destruct p; simpl in *; contradiction. }
  unfold report. rewrite Hc, Hwg, H0. reflexivity.
Qed.

Lemma run_ends_witness :
  crashed (run Steady.world (Failing.moves 0 12) Failing.one) <> None
  \/ report (run Steady.world (Failing.moves 0 12) Failing.one)
     = Some (results (run Steady.world (Failing.moves 0 12) Failing.one)).
Proof.
  apply (run_ends Steady.world Sample.config false [("eth", Sample.eth)]).
  intros i Hi. simpl in Hi. assert (i = 0%nat) as -> by lia.
  vm_compute. lia.
Defined.
